(** * Verification of the point-in-polygon master coordinator
      (src/pip/index.js) and the postal-code table lookup
      (src/postalCityMap.js).

    The coordinator is modelled as pure functions over an explicit
    coordinator record (the module-level globals [requestCount],
    [responseQueue] and [wofData]), returning the side effects it performs
    (messages sent to workers, completion callbacks, error logs). A small
    transition system then puts the coordinator together with the search
    workers, which answer each [search] message with one [results]
    message. *)

From Stdlib Require Import String Ascii ZArith List Sorting.Sorted.
From stdpp Require Import base gmap strings list.
Import ListNotations.

Open Scope string_scope.
Open Scope list_scope.

(* ------------------------------------------------------------------ *)
(** ** Data model *)

(** A Who's On First feature record as found in [wofData]: its id, its
    [Hierarchy] (an array of objects mapping an ancestor placetype key
    such as "country_id" to an ancestor id, kept here as association
    lists in the objects' own key order) and the rest of the record,
    which the coordinator never inspects. *)
Record feature := mkFeature {
  Id : string;
  Hierarchy : list (list (string * string));
  meta : nat
}.

#[global] Instance feature_eq_dec : EqDecision feature.
Proof. solve_decision. Defined.

(** A bookkeeping entry of [responseQueue] (index.js lines 80-86). The
    [responseCallback] of an entry is the completion handler passed with
    the lookup that created it; effects name it by the request id. *)
Record entry := mkEntry {
  results : list feature;
  latLon : Z * Z;
  search_layers : list string
}.

(** The module-level state of index.js. Coordinates are only stored and
    forwarded, never inspected; they are kept as a pair of integers. *)
Record coord := mkCoord {
  requestCount : nat;
  responseQueue : gmap nat entry;
  wofData : gmap string feature
}.

(** Side effects of the coordinator. *)
Inductive effect :=
  | Dispatch (id : nat) (layer : string) (coords : Z * Z)
      (** [worker.send({type:'search', id, coords})] to [workers[layer]] *)
  | Respond (id : nat) (err : option string) (res : list feature)
      (** [responseCallback(err, res)] of request [id] *)
  | LogError (id : nat).

(** A [results] message from a worker: [msg.results] is empty on a miss
    and carries the matched feature's [Id] on a hit. *)
Record results_msg := mkResults {
  msg_id : nat;
  msg_results : option string
}.

(** Outcome of a handler: it returns normally with the new state and its
    effects, or throws a TypeError. *)
Inductive outcome :=
  | Ok (c : coord) (effs : list effect)
  | Throws.

(* ------------------------------------------------------------------ *)
(** ** Layers *)

Definition defaultLayers : list string :=
  [ "neighbourhood"; "borough"; "locality"; "localadmin"; "county";
    "macrocounty"; "macroregion"; "region"; "dependency"; "country";
    "marinearea"; "ocean" ].

Definition mem (x : string) (l : list string) : bool :=
  bool_decide (x ∈ l).

(** lodash [_.intersection(a, b)]: the values of [a] that occur in [b],
    in the order of [a], each kept once (lodash's result cache). *)
Fixpoint intersection_go (a b seen : list string) : list string :=
  match a with
  | [] => []
  | x :: a' =>
      if mem x b && negb (mem x seen)
      then x :: intersection_go a' b (x :: seen)
      else intersection_go a' b seen
  end.

Definition intersection (a b : list string) : list string :=
  intersection_go a b [].

(** lodash [_.isEmpty] on the optional [layers] argument. *)
Definition isEmpty {A} (o : option (list A)) : bool :=
  match o with
  | None | Some [] => true
  | Some _ => false
  end.

(** index.js line 42: the active layers of [createPIPService]. *)
Definition create_layers (layers : option (list string)) : list string :=
  intersection defaultLayers
    (if isEmpty layers then defaultLayers
     else match layers with Some l => l | None => defaultLayers end).

(** index.js lines 57-65: the layers searched by one lookup. *)
Definition lookup_layers (layers : list string)
    (search_layers : option (list string)) : list string :=
  match search_layers with
  | None => layers
  | Some s => intersection layers s
  end.

(* ------------------------------------------------------------------ *)
(** ** lookup (index.js lines 56-93) *)

Definition lookup (c : coord) (layers : list string)
    (latitude longitude : Z) (search_layers : option (list string))
    : coord * list effect :=
  let sl := lookup_layers layers search_layers in
  let id := requestCount c in
  let c1 := mkCoord (S id) (responseQueue c) (wofData c) in
  match sl with
  | [] => (c1, [Respond id None []])
  | l :: rest =>
      match responseQueue c !! id with
      | Some _ => (c1, [LogError id; Respond id None []])
      | None =>
          (* the entry keeps a copy of the layers; its first layer is
             shifted off and dispatched *)
          (mkCoord (S id)
             (<[id := mkEntry [] (latitude, longitude) rest]> (responseQueue c))
             (wofData c),
           [Dispatch id l (latitude, longitude)])
      end
  end.

(* ------------------------------------------------------------------ *)
(** ** Hierarchy assembly and handleResults (index.js lines 142-179) *)

(** Lines 164-173: [wofData[Id].Hierarchy] throws (None) when [Id] is not
    in [wofData]; a non-empty hierarchy gives the records of the values of
    its first object, absent ids dropped by [_.compact]; an empty one
    gives the matched record alone. *)
Definition assemble (wof : gmap string feature) (fid : string)
    : option (list feature) :=
  match wof !! fid with
  | None => None
  | Some r =>
      match Hierarchy r with
      | h0 :: _ => Some (omap (fun id => wof !! id) (map snd h0))
      | [] => Some [r]
      end
  end.

Definition handleResults (c : coord) (msg : results_msg) : outcome :=
  match responseQueue c !! msg_id msg with
  | None => Ok c [LogError (msg_id msg)]
  | Some e =>
      match msg_results msg with
      | None =>
          match search_layers e with
          | l :: rest =>
              Ok (mkCoord (requestCount c)
                    (<[msg_id msg := mkEntry (results e) (latLon e) rest]>
                       (responseQueue c))
                    (wofData c))
                 [Dispatch (msg_id msg) l (latLon e)]
          | [] => Ok c [Respond (msg_id msg) None []]
          end
      | Some fid =>
          match assemble (wofData c) fid with
          | None => Throws
          | Some res =>
              Ok (mkCoord (requestCount c) (delete (msg_id msg) (responseQueue c))
                    (wofData c))
                 [Respond (msg_id msg) None res]
          end
      end
  end.

(* ------------------------------------------------------------------ *)
(** ** The coordinator together with its workers *)

(** Events of one request, as observed on its id. *)
Inductive rev :=
  | RLookup (layers : list string)   (** lookup called; the layers it searches *)
  | RDispatch (layer : string)       (** search message sent to that layer's worker *)
  | RReply (layer : string) (r : option string)  (** results message received *)
  | RRespond (err : option string) (res : list feature).  (** callback invoked *)

Record sys := mkSys {
  co : coord;
  pool_layers : list string;          (** [layers] of the lookup closure *)
  inflight : list (nat * string);     (** search messages not yet answered *)
  trace : list (nat * rev);
  alive : bool                        (** false once a handler has thrown *)
}.

Fixpoint sends (effs : list effect) : list (nat * string) :=
  match effs with
  | [] => []
  | Dispatch id l _ :: effs' => (id, l) :: sends effs'
  | _ :: effs' => sends effs'
  end.

Fixpoint effects_trace (effs : list effect) : list (nat * rev) :=
  match effs with
  | [] => []
  | Dispatch id l _ :: effs' => (id, RDispatch l) :: effects_trace effs'
  | Respond id err res :: effs' => (id, RRespond err res) :: effects_trace effs'
  | LogError _ :: effs' => effects_trace effs'
  end.

(** A worker answers each search message it receives with one results
    message, a miss or a hit on any feature id (src/pip/worker.js is not
    among the sources; this is the spec's message contract). An uncaught
    TypeError in the message handler stops the master process. *)
Inductive step : sys -> sys -> Prop :=
  | step_lookup s lat lon sl c' effs :
      alive s = true ->
      lookup (co s) (pool_layers s) lat lon sl = (c', effs) ->
      step s (mkSys c' (pool_layers s) (inflight s ++ sends effs)
                (trace s ++ (requestCount (co s),
                             RLookup (lookup_layers (pool_layers s) sl))
                          :: effects_trace effs)
                true)
  | step_reply s pre post id l r c' effs :
      alive s = true ->
      inflight s = pre ++ (id, l) :: post ->
      handleResults (co s) (mkResults id r) = Ok c' effs ->
      step s (mkSys c' (pool_layers s) (pre ++ post ++ sends effs)
                (trace s ++ (id, RReply l r) :: effects_trace effs) true)
  | step_crash s pre post id l r :
      alive s = true ->
      inflight s = pre ++ (id, l) :: post ->
      handleResults (co s) (mkResults id r) = Throws ->
      step s (mkSys (co s) (pool_layers s) (inflight s) (trace s) false).

(** The service once every worker has loaded: [W] is the merged
    [wofData], [layers] the active layers. *)
Definition init (W : gmap string feature) (layers : list string) : sys :=
  mkSys (mkCoord 0 ∅ W) layers [] [] true.

Definition reachable (W : gmap string feature) (layers : list string) (s : sys) : Prop :=
  rtc step (init W layers) s.

(** The events of request [id], in order. *)
Fixpoint proj (id : nat) (tr : list (nat * rev)) : list rev :=
  match tr with
  | [] => []
  | (i, e) :: tr' => if Nat.eqb i id then e :: proj id tr' else proj id tr'
  end.

(** The layers of the search messages of request [id] still in flight. *)
Fixpoint msgs_for (id : nat) (m : list (nat * string)) : list string :=
  match m with
  | [] => []
  | (i, l) :: m' => if Nat.eqb i id then l :: msgs_for id m' else msgs_for id m'
  end.

(** Layers dispatched in a request's events. *)
Fixpoint dispatched (tr : list rev) : list string :=
  match tr with
  | [] => []
  | RDispatch l :: tr' => l :: dispatched tr'
  | _ :: tr' => dispatched tr'
  end.

(* ------------------------------------------------------------------ *)
(** ** The cascade protocol of the spec (section 4.2)

    Per-request state machine CREATED -> SEARCHING(layer) ->
    {SEARCHING(next layer) | RESOLVED(hit) | RESOLVED(empty)}: the first
    remaining layer is dispatched; a miss moves on to the next one or
    resolves with the empty list; a hit resolves with the hierarchy
    assembled from the dataset [W]. RESOLVED accepts no further event. *)
Inductive pstate :=
  | PInit
  | PNext (rest : list string)
  | PSearching (layer : string) (rest : list string)
  | PHit (res : list feature)
  | PResolvedHit (res : list feature)
  | PResolvedEmpty.

Definition cascade_step (W : gmap string feature) (p : pstate) (ev : rev)
    : option pstate :=
  match p, ev with
  | PInit, RLookup ls => Some (PNext ls)
  | PNext (l :: rest), RDispatch l' =>
      if decide (l = l') then Some (PSearching l rest) else None
  | PNext [], RRespond None [] => Some PResolvedEmpty
  | PSearching l rest, RReply l' None =>
      if decide (l = l') then Some (PNext rest) else None
  | PSearching l rest, RReply l' (Some f) =>
      if decide (l = l') then PHit <$> assemble W f else None
  | PHit res, RRespond None res' =>
      if decide (res = res') then Some (PResolvedHit res) else None
  | _, _ => None
  end.

Fixpoint cascade_run (W : gmap string feature) (p : pstate) (tr : list rev)
    : option pstate :=
  match tr with
  | [] => Some p
  | ev :: tr' =>
      match cascade_step W p ev with
      | Some p' => cascade_run W p' tr'
      | None => None
      end
  end.

(** How the coordinator's state of request [id] reflects the protocol
    state reached by its events. *)
Definition matches (s : sys) (id : nat) (p : pstate) : Prop :=
  match p with
  | PSearching l rest =>
      (exists e, responseQueue (co s) !! id = Some e /\ search_layers e = rest) /\
      msgs_for id (inflight s) = [l]
  | PResolvedHit _ =>
      responseQueue (co s) !! id = None /\ msgs_for id (inflight s) = []
  | PResolvedEmpty =>
      (forall e, responseQueue (co s) !! id = Some e -> search_layers e = []) /\
      msgs_for id (inflight s) = []
  | _ => False
  end.

Record inv (W : gmap string feature) (s : sys) : Prop := {
  inv_wof : wofData (co s) = W;
  inv_fresh : forall id, requestCount (co s) <= id ->
    proj id (trace s) = [] /\ responseQueue (co s) !! id = None /\
    msgs_for id (inflight s) = [];
  inv_used : forall id, id < requestCount (co s) ->
    exists p, cascade_run W PInit (proj id (trace s)) = Some p /\ matches s id p
}.

(* ------------------------------------------------------------------ *)
(** ** Postal-code tables (src/postalCityMap.js) *)

Module Postal.

(** One alternative of a postal-code table (loadTable, lines 76-82). *)
Record candidate := mkCandidate {
  wofid : string;
  name : string;
  abbr : option string;
  placetype : option string;
  weight : Z
}.

(** ISO country codes using the USA 'zip' system. *)
Definition USA_ISO_CODES : list string :=
  ["USA"; "ASM"; "GUM"; "MNP"; "PRI"; "VIR"].

(** Characters are modelled as 7-bit ASCII code units: [\d] is 0-9,
    [\s] is space, tab, LF, VT, FF and CR, [.] excludes the line
    terminators LF and CR, and [toUpperCase] maps a-z to A-Z. *)
Definition is_digit (c : ascii) : bool :=
  let n := nat_of_ascii c in Nat.leb 48 n && Nat.leb n 57.

Definition is_space (c : ascii) : bool :=
  let n := nat_of_ascii c in (Nat.leb 9 n && Nat.leb n 13) || Nat.eqb n 32.

Definition is_line_terminator (c : ascii) : bool :=
  let n := nat_of_ascii c in Nat.eqb n 10 || Nat.eqb n 13.

Definition to_upper (c : ascii) : ascii :=
  let n := nat_of_ascii c in
  if Nat.leb 97 n && Nat.leb n 122 then ascii_of_nat (n - 32) else c.

Fixpoint str_map (f : ascii -> ascii) (s : string) : string :=
  match s with
  | EmptyString => EmptyString
  | String c s' => String (f c) (str_map f s')
  end.

(** [s.replace(re, '')] for a one-character global class [re]. *)
Fixpoint str_remove (p : ascii -> bool) (s : string) : string :=
  match s with
  | EmptyString => EmptyString
  | String c s' => if p c then str_remove p s' else String c (str_remove p s')
  end.

Fixpoint str_forallb (p : ascii -> bool) (s : string) : bool :=
  match s with
  | EmptyString => true
  | String c s' => p c && str_forallb p s'
  end.

(** [/\d{5}/] anchored at the start of [s]. *)
Definition five_digits (s : string) : option string :=
  match s with
  | String a (String b (String c (String d (String e _)))) =>
      if is_digit a && is_digit b && is_digit c && is_digit d && is_digit e
      then Some (String a (String b (String c (String d (String e EmptyString)))))
      else None
  | _ => None
  end.

(** [s.match(/\d{5}/)]: the leftmost five consecutive digits. *)
Fixpoint match_5digits (s : string) : option string :=
  match five_digits s with
  | Some m => Some m
  | None =>
      match s with
      | EmptyString => None
      | String _ s' => match_5digits s'
      end
  end.

(** [s.replace(/-.*$/, '')]: cut at the leftmost '-' from which [.*]
    reaches the end of the input. *)
Fixpoint strip_dash_tail (s : string) : string :=
  match s with
  | EmptyString => EmptyString
  | String c s' =>
      if Ascii.eqb c "-" && str_forallb (fun x => negb (is_line_terminator x)) s'
      then EmptyString
      else String c (strip_dash_tail s')
  end.

(** normalizePostcode (lines 126-140). *)
Definition normalizePostcode (postcode : string) (isocode : option string) : string :=
  if match isocode with Some i => mem i USA_ISO_CODES | None => false end
  then
    match match_5digits postcode with
    | Some m => m
    | None =>
        substring 0 5 (str_remove (fun c => negb (is_digit c)) (strip_dash_tail postcode))
    end
  else str_remove is_space (str_map to_upper postcode).

(** The module's [tables], loaded once when the module is required:
    country code to (normalized postal code to candidates). [lookup]
    reads them and returns only its result. *)
Definition lookup (tables : gmap string (gmap string (list candidate)))
    (isocode postalcode : string) : option (list candidate) :=
  match tables !! isocode with
  | None => None
  | Some t => t !! normalizePostcode postalcode (Some isocode)
  end.

End Postal.

(** What the protocol states say about the events that led to them,
    starting from the queue [ls]. *)
Definition progress (ls : list string) (t : list rev) (q : pstate) : Prop :=
  match q with
  | PInit => False
  | PNext r =>
      dispatched t ++ r = ls /\
      (t = [] \/ exists t0 l0, t = t0 ++ [RReply l0 None] /\
                              last (dispatched t0) = Some l0)
  | PSearching l r => exists d, dispatched t = d ++ [l] /\ d ++ l :: r = ls
  | PHit _ | PResolvedHit _ => exists r, dispatched t ++ r = ls
  | PResolvedEmpty => dispatched t = ls
  end.

(* ------------------------------------------------------------------ *)
(** ** Example data *)

(** A locality whose hierarchy names a region absent from the dataset,
    and a country with an empty hierarchy. *)
Definition ex_locality : feature :=
  mkFeature "101" [[("locality_id", "101"); ("region_id", "999"); ("country_id", "300")]] 0.
Definition ex_country : feature := mkFeature "300" [] 1.
Definition ex_wof : gmap string feature :=
  <["101" := ex_locality]> (<["300" := ex_country]> ∅).
Definition ex_pending : coord :=
  mkCoord 1 {[0 := mkEntry [] (0%Z, 0%Z) ["country"]]} ex_wof.

Definition ex_candidate : Postal.candidate :=
  Postal.mkCandidate "85922583" "Oakland" (Some "OAK") (Some "locality") 0.
Definition ex_usa_table : gmap string (list Postal.candidate) :=
  {[ "94610" := [ex_candidate] ]}.
Definition ex_tables : gmap string (gmap string (list Postal.candidate)) :=
  {[ "USA" := ex_usa_table ]}.

(* ------------------------------------------------------------------ *)
(** ** A concrete run: layers locality then country; the locality worker
    misses, the country worker hits the country "300". *)

Definition after_lookup (s : sys) (lat lon : Z) (sl : option (list string)) : sys :=
  let '(c', effs) := lookup (co s) (pool_layers s) lat lon sl in
  mkSys c' (pool_layers s) (inflight s ++ sends effs)
    (trace s ++ (requestCount (co s), RLookup (lookup_layers (pool_layers s) sl))
              :: effects_trace effs) true.

Definition after_reply (s : sys) (pre post : list (nat * string)) (id : nat)
    (l : string) (r : option string) : sys :=
  match handleResults (co s) (mkResults id r) with
  | Ok c' effs =>
      mkSys c' (pool_layers s) (pre ++ post ++ sends effs)
        (trace s ++ (id, RReply l r) :: effects_trace effs) true
  | Throws => mkSys (co s) (pool_layers s) (inflight s) (trace s) false
  end.

Definition ex_layers : list string := ["locality"; "country"].
Definition sc1 : sys := after_lookup (init ex_wof ex_layers) 0 0 None.
Definition sc2 : sys := after_reply sc1 [] [] 0 "locality" None.
Definition sc3 : sys := after_reply sc2 [] [] 0 "country" (Some "300").

(* ------------------------------------------------------------------ *)
(** ** Merging the layers' datasets (startWorker, index.js lines 109-119)

    When the worker of a layer reports 'loaded', the master reads that
    layer's records and merges them into [wofData] with [_.assign]: a
    record of the object merged later replaces one with the same id.
    [load_all ds] is [wofData] once the datasets [ds] have been merged in
    that order (the order in which the workers finished loading),
    starting from the empty object. *)
Definition load_all (ds : list (gmap string feature)) : gmap string feature :=
  fold_left (fun wof d => d ∪ wof) ds ∅.

Definition ex_locality_data : gmap string feature := {[ "101" := ex_locality ]}.
Definition ex_country_data : gmap string feature := {[ "300" := ex_country ]}.

(* ------------------------------------------------------------------ *)
(** ** Loading the postal-code tables (postalCityMap.js lines 48-123) *)

Module PostalLoad.
Import Postal.

(** A TSV line as produced by csv-parse with [trim: true] and the
    columns postalcode, wofid, name, abbr, placetype, weight. A column
    missing from a short line is [None] (undefined). The weight column is
    kept as the integer that [parseInt(weight, 10)] reads from it; [None]
    stands for a missing or empty column (a falsy [line.weight]). *)
Record line := mkLine {
  l_postalcode : option string;
  l_wofid : option string;
  l_name : option string;
  l_abbr : option string;
  l_placetype : option string;
  l_weight : option Z
}.

Definition MAX_SAFE_INTEGER : Z := 9007199254740991.

(** The filter of [parse] (lines 110-117): [None] when it reads
    [.length] of an undefined column and so throws. *)
Definition mandatory_ok (ln : line) : option bool :=
  match l_postalcode ln with
  | None => None
  | Some p =>
      if String.eqb p "" then Some false else
      match l_wofid ln with
      | None => None
      | Some w =>
          if String.eqb w "" then Some false else
          match l_name ln with
          | None => None
          | Some n => Some (negb (String.eqb n ""))
          end
      end
  end.

Fixpoint filter_lines (lines : list line) : option (list line) :=
  match lines with
  | [] => Some []
  | ln :: lines' =>
      match mandatory_ok ln, filter_lines lines' with
      | Some b, Some rest => Some (if b then ln :: rest else rest)
      | _, _ => None
      end
  end.

(** Lines 118-121: a line without weight takes the default weight. *)
Definition default_weight (defaultWeight : option Z) (ln : line) : line :=
  match l_weight ln, defaultWeight with
  | None, Some d => mkLine (l_postalcode ln) (l_wofid ln) (l_name ln)
                      (l_abbr ln) (l_placetype ln) (Some d)
  | _, _ => ln
  end.

(** parse (lines 106-123) on the lines csv-parse returned; [None] when
    it throws. *)
Definition parse (lines : list line) (defaultWeight : option Z) : option (list line) :=
  match filter_lines lines with
  | Some kept => Some (map (default_weight defaultWeight) kept)
  | None => None
  end.

Fixpoint trim_left (s : string) : string :=
  match s with
  | EmptyString => EmptyString
  | String c s' => if is_space c then trim_left s' else s
  end.

Definition str_rev (s : string) : string :=
  string_of_list_ascii (List.rev (list_ascii_of_string s)).

(** [String.prototype.trim]. *)
Definition trim (s : string) : string :=
  str_rev (trim_left (str_rev (trim_left s))).

(** [x && x.length ? x.trim() : undefined] (lines 79-80). *)
Definition opt_trim (o : option string) : option string :=
  match o with
  | Some s => if String.eqb s "" then None else Some (trim s)
  | None => None
  end.

(** The candidate pushed for a row (lines 76-82); rows reaching it went
    through [parse], so their three mandatory columns are strings. *)
Definition candidate_of_line (ln : line) : candidate :=
  mkCandidate (str_remove is_space (default "" (l_wofid ln)))
    (trim (default "" (l_name ln)))
    (opt_trim (l_abbr ln)) (opt_trim (l_placetype ln))
    (default 0%Z (l_weight ln)).

(** Lines 73-83: candidates grouped under the postal code normalized
    without a country code, in row order. *)
Definition group_rows (rows : list line) : gmap string (list candidate) :=
  fold_left (fun m ln =>
      let k := normalizePostcode (default "" (l_postalcode ln)) None in
      <[k := default [] (m !! k) ++ [candidate_of_line ln]]> m) rows ∅.

(** Lines 89-93: records with an empty wofid or name are removed. *)
Definition valid (c : candidate) : bool :=
  negb (String.eqb (wofid c) "") && negb (String.eqb (name c) "").

(** The [stable] package with comparator [b.weight - a.weight]: the
    stable ordering by weight, highest first; records of equal weight
    keep their order. *)
Fixpoint insert_desc (c : candidate) (l : list candidate) : list candidate :=
  match l with
  | [] => [c]
  | x :: l' => if Z.leb (weight x) (weight c) then c :: x :: l'
               else x :: insert_desc c l'
  end.

Fixpoint stable_sort_desc (l : list candidate) : list candidate :=
  match l with
  | [] => []
  | c :: l' => insert_desc c (stable_sort_desc l')
  end.

(** lodash [_.uniqBy(l, 'wofid')]: the first record of each wofid. *)
Fixpoint uniqBy_go (seen : list string) (l : list candidate) : list candidate :=
  match l with
  | [] => []
  | c :: l' =>
      if mem (wofid c) seen then uniqBy_go seen l'
      else c :: uniqBy_go (wofid c :: seen) l'
  end.

Definition uniqBy_wofid (l : list candidate) : list candidate := uniqBy_go [] l.

(** Lines 86-100: the post-processing of each postal code's list. *)
Definition postprocess (l : list candidate) : list candidate :=
  uniqBy_wofid (stable_sort_desc (List.filter valid l)).

(** loadTable (lines 48-103): the parsed lines of the base file and of
    the override file ([None] when the file does not exist); [None] when
    [parse] throws. *)
Definition loadTable (base override : option (list line))
    : option (gmap string (list candidate)) :=
  let pb := match base with Some ls => parse ls None | None => Some [] end in
  let po := match override with
            | Some ls => parse ls (Some MAX_SAFE_INTEGER)
            | None => Some [] end in
  match pb, po with
  | Some rb, Some ro => Some (postprocess <$> group_rows (rb ++ ro))
  | _, _ => None
  end.


(** csv-parse's [trim: true]: a field read from a file neither starts
    nor ends with whitespace. *)
Definition trimmed (s : string) : bool :=
  match s with EmptyString => true | String c _ => negb (is_space c) end &&
  match str_rev s with EmptyString => true | String c _ => negb (is_space c) end.

(** Example files: a base file with a duplicate wofid of lower weight, a
    ZIP+4 row and a row without weight, and an override file whose row
    has no weight. *)
Definition ex_base_lines : list line :=
  [ mkLine (Some "94610") (Some "85922583") (Some "Oakland") (Some "OAK")
      (Some "locality") (Some 5%Z);
    mkLine (Some "94610") (Some "85922583") (Some "Oakland") None None (Some 1%Z);
    mkLine (Some "94610") (Some "85921877") (Some "Berkeley") None None None;
    mkLine (Some "94610-2737") (Some "85922583") (Some "Oakland") None None None ].
Definition ex_override_lines : list line :=
  [ mkLine (Some "94610") (Some "85921877") (Some "Berkeley") None None None ].

End PostalLoad.

(** The two rules of normalizePostcode (lines 129-139). *)
Module PostalRules.
Import Postal.

(** The rule for codes outside the USA zip system. *)
Definition generic (s : string) : string := str_remove is_space (str_map to_upper s).

(** The zip-system rule (lines 129-137). *)
Definition zip (s : string) : string :=
  match match_5digits s with
  | Some m => m
  | None => substring 0 5 (str_remove (fun c => negb (is_digit c)) (strip_dash_tail s))
  end.

End PostalRules.

(* ================================================================== *)
(** * Properties *)

Module PostalFacts.
Import Postal.

Example normalize_zip_plus4 : normalizePostcode "CA 94610-2737" (Some "USA") = "94610".
Proof. reflexivity. Qed.

Example normalize_short_zip : normalizePostcode "1234-5" (Some "PRI") = "1234".
Proof. reflexivity. Qed.

Example normalize_nzl : normalizePostcode " 6011 x" (Some "NZL") = "6011X".
Proof. reflexivity. Qed.

End PostalFacts.

(* ------------------------------------------------------------------ *)
(** ** Layer selection *)

Lemma NoDup_defaultLayers : NoDup defaultLayers.
Proof. unfold defaultLayers. repeat constructor; set_solver. Qed.

Lemma intersection_go_filter (a b seen : list string) :
  NoDup a -> (forall x, x ∈ a -> x ∉ seen) ->
  intersection_go a b seen = List.filter (fun x => mem x b) a.
Proof.
  revert seen. induction a as [|x a IH]; intros seen Hnd Hsep; [done|].
  apply NoDup_cons in Hnd as [Hx Hnd]. simpl.
  assert (Hxs : mem x seen = false).
  { unfold mem. apply bool_decide_eq_false. apply Hsep. set_solver. }
  rewrite Hxs, andb_true_r.
  destruct (mem x b) eqn:Hb.
  - f_equal. apply IH; [done|]. intros y Hy. rewrite elem_of_cons.
    intros [->|Hys]; [done|]. apply (Hsep y); set_solver.
  - apply IH; [done|]. intros y Hy. apply Hsep. set_solver.
Qed.

Lemma intersection_filter (a b : list string) :
  NoDup a -> intersection a b = List.filter (fun x => mem x b) a.
Proof. intros Hnd. apply intersection_go_filter; [done|set_solver]. Qed.

Lemma create_layers_NoDup req : NoDup (create_layers req).
Proof.
  unfold create_layers. rewrite intersection_filter by apply NoDup_defaultLayers.
  apply NoDup_ListNoDup, List.NoDup_filter, NoDup_ListNoDup, NoDup_defaultLayers.
Qed.

(** C3 (counterexample): the claim has an explicitly empty requested list
    fall back to the full canonical set in lookup as in create; a lookup
    that passes [[]] on a pool with every layer searches no layer. *)
Lemma lookup_empty_request_searches_nothing :
  lookup_layers (create_layers None) (Some []) = [] /\
  lookup_layers (create_layers None) (Some []) <> defaultLayers.
Proof. split; [reflexivity|discriminate]. Qed.

(** C3 (amended): create keeps the canonical layers named in the request,
    in canonical order (all of them when the request is absent or
    empty); lookup keeps the pool's active layers when no layers are
    passed, and otherwise the active layers named in the passed list, in
    canonical order (none for an empty list). Unknown names and caller
    order play no role: ["country"; "neighbourhood"] gives
    ["neighbourhood"; "country"]. *)
Theorem effective_layers_canonical (req sl : option (list string)) :
  create_layers req =
    (if isEmpty req then defaultLayers
     else List.filter (fun x => mem x (default [] req)) defaultLayers) /\
  lookup_layers (create_layers req) sl =
    match sl with
    | None => create_layers req
    | Some s => List.filter (fun x => mem x s) (create_layers req)
    end /\
  create_layers (Some ["country"; "neighbourhood"]) = ["neighbourhood"; "country"] /\
  lookup_layers (create_layers None) (Some ["country"; "neighbourhood"]) =
    ["neighbourhood"; "country"].
Proof.
  split; [|split; [|split; reflexivity]].
  - unfold create_layers. destruct (isEmpty req) eqn:He; [reflexivity|].
    rewrite intersection_filter by apply NoDup_defaultLayers.
    destruct req as [l|]; [reflexivity|discriminate].
  - destruct sl as [s|]; [|reflexivity]. simpl.
    apply intersection_filter, create_layers_NoDup.
Qed.

(* ------------------------------------------------------------------ *)
(** ** lookup and handleResults *)

(** C2: when the effective layer set is empty, lookup answers the
    callback at once with no error and the empty list, sends no search
    message and leaves the pending table unchanged (only the request
    counter advances). *)
Theorem lookup_no_layers_resolves_empty (c : coord) (layers : list string)
    (lat lon : Z) (sl : option (list string)) :
  lookup_layers layers sl = [] ->
  lookup c layers lat lon sl =
    (mkCoord (S (requestCount c)) (responseQueue c) (wofData c),
     [Respond (requestCount c) None []]).
Proof. intros H. unfold lookup. rewrite H. reflexivity. Qed.

Lemma lookup_no_layers_resolves_empty_witness :
  lookup_layers defaultLayers (Some ["bogus"]) = [] /\
  lookup (mkCoord 4 ∅ ∅) defaultLayers 1 2 (Some ["bogus"]) =
    (mkCoord 5 ∅ ∅, [Respond 4 None []]).
Proof.
  split; [reflexivity|].
  apply (lookup_no_layers_resolves_empty (mkCoord 4 ∅ ∅) defaultLayers 1 2 (Some ["bogus"])).
  reflexivity.
Defined.

(** C7: a results message whose id has no pending entry is logged and
    dropped: no callback, no search message, the state is unchanged. *)
Theorem handleResults_unknown_id (c : coord) (msg : results_msg) :
  responseQueue c !! msg_id msg = None ->
  handleResults c msg = Ok c [LogError (msg_id msg)].
Proof. intros H. unfold handleResults. rewrite H. reflexivity. Qed.

Lemma handleResults_unknown_id_witness :
  (∅ : gmap nat entry) !! 7 = None /\
  handleResults (mkCoord 9 ∅ ∅) (mkResults 7 (Some "85633793")) =
    Ok (mkCoord 9 ∅ ∅) [LogError 7].
Proof.
  split; [reflexivity|].
  apply (handleResults_unknown_id (mkCoord 9 ∅ ∅) (mkResults 7 (Some "85633793"))).
  reflexivity.
Defined.

(** C6: on a hit for a feature present in the dataset, the callback gets
    the records of the ids of the first hierarchy object, in that
    object's key order, ids absent from the dataset left out; a feature
    with an empty hierarchy gives the one-element list of its record. The
    pending entry is removed. *)
Theorem handleResults_hit_assembles (c : coord) (id : nat) (e : entry)
    (fid : string) (r : feature) :
  responseQueue c !! id = Some e ->
  wofData c !! fid = Some r ->
  handleResults c (mkResults id (Some fid)) =
    Ok (mkCoord (requestCount c) (delete id (responseQueue c)) (wofData c))
       [Respond id None
          match Hierarchy r with
          | h0 :: _ => omap (fun x => wofData c !! x) (map snd h0)
          | [] => [r]
          end].
Proof.
  intros He Hr. unfold handleResults, assemble. simpl. rewrite He, Hr.
  destruct (Hierarchy r); reflexivity.
Qed.

Lemma handleResults_hit_assembles_witness :
  responseQueue ex_pending !! 0 = Some (mkEntry [] (0%Z, 0%Z) ["country"]) /\
  wofData ex_pending !! "101" = Some ex_locality /\
  handleResults ex_pending (mkResults 0 (Some "101")) =
    Ok (mkCoord 1 ∅ ex_wof) [Respond 0 None [ex_locality; ex_country]].
Proof.
  split; [reflexivity|]. split; [reflexivity|].
  rewrite (handleResults_hit_assembles ex_pending 0 (mkEntry [] (0%Z, 0%Z) ["country"])
             "101" ex_locality); reflexivity.
Defined.

(** C10: a hit whose feature id is absent from the dataset makes the
    handler throw (reading [Hierarchy] of undefined): the request is not
    resolved. *)
Theorem handleResults_hit_absent_feature_throws (c : coord) (id : nat) (e : entry)
    (fid : string) :
  responseQueue c !! id = Some e ->
  wofData c !! fid = None ->
  handleResults c (mkResults id (Some fid)) = Throws.
Proof.
  intros He Hr. unfold handleResults, assemble. simpl. rewrite He, Hr. reflexivity.
Qed.

Lemma handleResults_hit_absent_feature_throws_witness :
  responseQueue ex_pending !! 0 = Some (mkEntry [] (0%Z, 0%Z) ["country"]) /\
  wofData ex_pending !! "404" = None /\
  handleResults ex_pending (mkResults 0 (Some "404")) = Throws.
Proof.
  split; [reflexivity|]. split; [reflexivity|].
  apply (handleResults_hit_absent_feature_throws ex_pending 0
           (mkEntry [] (0%Z, 0%Z) ["country"]) "404"); reflexivity.
Defined.

(** C1 (failing input): a lookup on the single layer "ocean" whose reply
    is a miss is answered with the empty list, but its pending entry
    stays in [responseQueue]; a repeated reply answers the callback a
    second time. *)
Lemma miss_exhausted_keeps_entry :
  let '(c1, effs1) := lookup (mkCoord 0 ∅ ∅) ["ocean"] 0 0 None in
  effs1 = [Dispatch 0 "ocean" (0%Z, 0%Z)] /\
  match handleResults c1 (mkResults 0 None) with
  | Ok c2 effs2 =>
      effs2 = [Respond 0 None []] /\
      responseQueue c2 !! 0 = Some (mkEntry [] (0%Z, 0%Z) []) /\
      handleResults c2 (mkResults 0 None) = Ok c2 [Respond 0 None []]
  | Throws => False
  end.
Proof. vm_compute. repeat split. Qed.

(* ------------------------------------------------------------------ *)
(** ** Postal-code lookup *)

(** C9: lookup is absent (null) when the country has no table or the
    normalized postal code is not a key of its table, and is otherwise
    the candidate list stored under that key. *)
Theorem postal_lookup_spec (tables : gmap string (gmap string (list Postal.candidate)))
    (isocode postalcode : string) :
  (tables !! isocode = None -> Postal.lookup tables isocode postalcode = None) /\
  (forall t, tables !! isocode = Some t ->
     t !! Postal.normalizePostcode postalcode (Some isocode) = None ->
     Postal.lookup tables isocode postalcode = None) /\
  (forall t cands, tables !! isocode = Some t ->
     t !! Postal.normalizePostcode postalcode (Some isocode) = Some cands ->
     Postal.lookup tables isocode postalcode = Some cands).
Proof.
  unfold Postal.lookup. split; [|split].
  - intros H. rewrite H. reflexivity.
  - intros t H1 H2. rewrite H1. exact H2.
  - intros t cands H1 H2. rewrite H1. exact H2.
Qed.

(* ------------------------------------------------------------------ *)
(** ** The cascade invariant of the running service *)

Lemma proj_app id (t1 t2 : list (nat * rev)) :
  proj id (t1 ++ t2) = proj id t1 ++ proj id t2.
Proof.
  induction t1 as [|[i e] t1 IH]; [done|]. simpl.
  destruct (Nat.eqb i id); simpl; by rewrite IH.
Qed.

Lemma msgs_for_app id (m1 m2 : list (nat * string)) :
  msgs_for id (m1 ++ m2) = msgs_for id m1 ++ msgs_for id m2.
Proof.
  induction m1 as [|[i l] m1 IH]; [done|]. simpl.
  destruct (Nat.eqb i id); simpl; by rewrite IH.
Qed.

Lemma cascade_run_app W p (t1 t2 : list rev) :
  cascade_run W p (t1 ++ t2) =
    match cascade_run W p t1 with Some q => cascade_run W q t2 | None => None end.
Proof.
  revert p. induction t1 as [|ev t1 IH]; intros p; [done|]. simpl.
  destruct (cascade_step W p ev); [apply IH|done].
Qed.

Lemma matches_ext s s' id p :
  matches s id p ->
  responseQueue (co s') !! id = responseQueue (co s) !! id ->
  msgs_for id (inflight s') = msgs_for id (inflight s) ->
  matches s' id p.
Proof. intros Hm Hq Hi. destruct p; simpl in *; rewrite ?Hq, ?Hi; done. Qed.

Lemma singleton_app_cons {A} (xs ys : list A) (y z : A) :
  xs ++ y :: ys = [z] -> xs = [] /\ y = z /\ ys = [].
Proof.
  destruct xs as [|x [|x' xs]]; simpl; intros H; inversion H; subst; auto.
Qed.

Lemma lookup_cases c layers lat lon sl c' effs :
  lookup c layers lat lon sl = (c', effs) ->
  responseQueue c !! requestCount c = None ->
  (lookup_layers layers sl = [] /\
   c' = mkCoord (S (requestCount c)) (responseQueue c) (wofData c) /\
   effs = [Respond (requestCount c) None []]) \/
  (exists l rest, lookup_layers layers sl = l :: rest /\
   c' = mkCoord (S (requestCount c))
          (<[requestCount c := mkEntry [] (lat, lon) rest]> (responseQueue c))
          (wofData c) /\
   effs = [Dispatch (requestCount c) l (lat, lon)]).
Proof.
  unfold lookup. intros H Hn.
  destruct (lookup_layers layers sl) as [|l rest]; [left; inversion H; auto|].
  rewrite Hn in H. inversion H. right. eauto.
Qed.

Lemma handleResults_ok_cases c id r e c' effs :
  handleResults c (mkResults id r) = Ok c' effs ->
  responseQueue c !! id = Some e ->
  (r = None /\ exists l rest, search_layers e = l :: rest /\
     c' = mkCoord (requestCount c)
            (<[id := mkEntry (results e) (latLon e) rest]> (responseQueue c))
            (wofData c) /\
     effs = [Dispatch id l (latLon e)]) \/
  (r = None /\ search_layers e = [] /\ c' = c /\ effs = [Respond id None []]) \/
  (exists f res, r = Some f /\ assemble (wofData c) f = Some res /\
     c' = mkCoord (requestCount c) (delete id (responseQueue c)) (wofData c) /\
     effs = [Respond id None res]).
Proof.
  unfold handleResults. simpl. intros H He. rewrite He in H.
  destruct r as [f|].
  - destruct (assemble (wofData c) f) as [res|] eqn:Ha; inversion H.
    right; right. eauto 10.
  - destruct (search_layers e) as [|l rest] eqn:Hl; inversion H; subst.
    + right; left. auto.
    + left. eauto 10.
Qed.

Lemma init_inv W layers : inv W (init W layers).
Proof.
  split; simpl; [done| |lia].
  intros id _. rewrite lookup_empty. done.
Qed.

Ltac eqb_false a b :=
  let H := fresh in
  assert (H : Nat.eqb a b = false) by (apply Nat.eqb_neq; lia); rewrite ?H.

Lemma lookup_step_inv W s lat lon sl c' effs :
  inv W s ->
  lookup (co s) (pool_layers s) lat lon sl = (c', effs) ->
  inv W (mkSys c' (pool_layers s) (inflight s ++ sends effs)
           (trace s ++ (requestCount (co s),
                        RLookup (lookup_layers (pool_layers s) sl))
                     :: effects_trace effs) true).
Proof.
  intros [Hw Hf Hu] Hl.
  destruct (Hf (requestCount (co s)) (le_n _)) as (Hpn & Hqn & Hmn).
  destruct (lookup_cases _ _ _ _ _ _ _ Hl Hqn)
    as [(Hls & -> & ->) | (l & rest & Hls & -> & ->)]; rewrite Hls.
  - split; simpl; [done| |].
    + intros id Hid. destruct (Hf id ltac:(lia)) as (H1 & H2 & H3).
      rewrite proj_app, msgs_for_app, H1, H3. simpl.
      eqb_false (requestCount (co s)) id. done.
    + intros id Hid. rewrite proj_app. simpl.
      destruct (decide (id = requestCount (co s))) as [->|Hne].
      * rewrite Hpn, Nat.eqb_refl. exists PResolvedEmpty. simpl.
        rewrite app_nil_r, Hqn. done.
      * eqb_false (requestCount (co s)) id. rewrite app_nil_r.
        destruct (Hu id ltac:(lia)) as (p & Hr & Hm). exists p.
        split; [done|]. eapply matches_ext; [done|done|]. simpl.
        by rewrite app_nil_r.
  - split; simpl; [done| |].
    + intros id Hid. destruct (Hf id ltac:(lia)) as (H1 & H2 & H3).
      rewrite proj_app, msgs_for_app, H1, H3. simpl.
      eqb_false (requestCount (co s)) id.
      rewrite lookup_insert_ne by lia. done.
    + intros id Hid. rewrite proj_app. simpl.
      destruct (decide (id = requestCount (co s))) as [->|Hne].
      * rewrite Hpn, Nat.eqb_refl. exists (PSearching l rest). simpl.
        rewrite decide_True by done. split; [done|].
        rewrite msgs_for_app, Hmn. simpl. rewrite Nat.eqb_refl.
        split; [|done]. rewrite lookup_insert_eq. eauto.
      * eqb_false (requestCount (co s)) id. rewrite app_nil_r.
        destruct (Hu id ltac:(lia)) as (p & Hr & Hm). exists p.
        split; [done|]. eapply matches_ext; [done| |]; simpl.
        -- rewrite lookup_insert_ne by lia. done.
        -- rewrite msgs_for_app. simpl. eqb_false (requestCount (co s)) id.
           by rewrite app_nil_r.
Qed.

Lemma reply_step_inv W s pre post id l r c' effs :
  inv W s ->
  inflight s = pre ++ (id, l) :: post ->
  handleResults (co s) (mkResults id r) = Ok c' effs ->
  inv W (mkSys c' (pool_layers s) (pre ++ post ++ sends effs)
           (trace s ++ (id, RReply l r) :: effects_trace effs) true).
Proof.
  intros [Hw Hf Hu] Hin Hh.
  assert (Hmid : msgs_for id (inflight s) = msgs_for id pre ++ l :: msgs_for id post).
  { rewrite Hin, msgs_for_app. simpl. by rewrite Nat.eqb_refl. }
  assert (Hoth : forall id', id' <> id ->
            msgs_for id' (pre ++ post) = msgs_for id' (inflight s)).
  { intros id' Hne. rewrite Hin, !msgs_for_app. simpl. by eqb_false id id'. }
  assert (Hlt : id < requestCount (co s)).
  { destruct (Nat.lt_ge_cases id (requestCount (co s))) as [|Hge]; [done|].
    destruct (Hf id Hge) as (_ & _ & H3). rewrite Hmid in H3.
    destruct (msgs_for id pre); discriminate. }
  destruct (Hu id Hlt) as (p & Hrun & Hm).
  destruct p as [|rest0|l0 rest0|res0|res0|]; simpl in Hm; try contradiction;
    try (destruct Hm as [_ Hm]; rewrite Hmid in Hm;
         destruct (msgs_for id pre); discriminate).
  destruct Hm as ((e & He & Hse) & Hmsg). rewrite Hmid in Hmsg.
  apply singleton_app_cons in Hmsg as (Hpre & <- & Hpost).
  assert (Hself : msgs_for id (pre ++ post) = []).
  { by rewrite msgs_for_app, Hpre, Hpost. }
  destruct (handleResults_ok_cases _ _ _ _ _ _ Hh He)
    as [(-> & l2 & rest & Hsl & -> & ->)
       | [(-> & Hsl & -> & ->) | (f & res & -> & Ha & -> & ->)]].
  - (* miss, more layers: the next one is dispatched *)
    split; simpl; [done| |].
    + intros id' Hid'. destruct (Hf id' ltac:(lia)) as (H1 & H2 & H3).
      rewrite proj_app, H1, app_assoc, msgs_for_app, Hoth, H3 by lia. simpl.
      eqb_false id id'. rewrite lookup_insert_ne by lia. done.
    + intros id' Hid'. rewrite proj_app. simpl.
      destruct (decide (id' = id)) as [->|Hne].
      * rewrite Nat.eqb_refl. exists (PSearching l2 rest). split.
        -- rewrite cascade_run_app, Hrun. simpl.
           rewrite decide_True by done. rewrite <- Hse, Hsl. simpl.
           by rewrite decide_True.
        -- simpl. rewrite lookup_insert_eq, app_assoc, msgs_for_app, Hself.
           simpl. rewrite Nat.eqb_refl. eauto.
      * eqb_false id id'. rewrite app_nil_r.
        destruct (Hu id' Hid') as (p & Hr & Hm). exists p.
        split; [done|]. eapply matches_ext; [done| |]; simpl.
        -- rewrite lookup_insert_ne by lia. done.
        -- rewrite app_assoc, msgs_for_app, Hoth by done. simpl.
           eqb_false id id'. by rewrite app_nil_r.
  - (* miss, no layer left: answered with the empty list *)
    split; simpl; [done| |].
    + intros id' Hid'. destruct (Hf id' ltac:(lia)) as (H1 & H2 & H3).
      rewrite proj_app, H1, app_nil_r, Hoth, H3 by lia. simpl.
      eqb_false id id'. done.
    + intros id' Hid'. rewrite proj_app. simpl.
      destruct (decide (id' = id)) as [->|Hne].
      * rewrite Nat.eqb_refl. exists PResolvedEmpty. split.
        -- rewrite cascade_run_app, Hrun. simpl.
           rewrite decide_True by done. rewrite <- Hse, Hsl. done.
        -- simpl. rewrite app_nil_r, Hself. split; [|done].
           intros e' He'. rewrite He in He'. injection He' as <-. exact Hsl.
      * eqb_false id id'. rewrite app_nil_r.
        destruct (Hu id' Hid') as (p & Hr & Hm). exists p.
        split; [done|]. eapply matches_ext; [done|done|]; simpl.
        rewrite app_nil_r, Hoth by done. done.
  - (* hit: answered with the assembled hierarchy, entry removed *)
    split; simpl; [done| |].
    + intros id' Hid'. destruct (Hf id' ltac:(lia)) as (H1 & H2 & H3).
      rewrite proj_app, H1, app_nil_r, Hoth, H3 by lia. simpl.
      eqb_false id id'. rewrite lookup_delete_ne by lia. done.
    + intros id' Hid'. rewrite proj_app. simpl.
      destruct (decide (id' = id)) as [->|Hne].
      * rewrite Nat.eqb_refl. exists (PResolvedHit res). split.
        -- rewrite cascade_run_app, Hrun. simpl.
           rewrite decide_True by done. rewrite <- Hw, Ha. simpl.
           by rewrite decide_True.
        -- simpl. rewrite lookup_delete_eq, app_nil_r, Hself. done.
      * eqb_false id id'. rewrite app_nil_r.
        destruct (Hu id' Hid') as (p & Hr & Hm). exists p.
        split; [done|]. eapply matches_ext; [done| |]; simpl.
        -- rewrite lookup_delete_ne by lia. done.
        -- rewrite app_nil_r, Hoth by done. done.
Qed.

Lemma step_inv W s s' : inv W s -> step s s' -> inv W s'.
Proof.
  intros Hi Hs. destruct Hs as [s lat lon sl c' effs _ Hl
                               | s pre post id l r c' effs _ Hin Hh
                               | s pre post id l r _ _ _].
  - by eapply lookup_step_inv.
  - by eapply reply_step_inv.
  - destruct Hi as [Hw Hf Hu]. split; simpl; [done|done|].
    intros id' Hid'. destruct (Hu id' Hid') as (p & Hr & Hm). exists p.
    split; [done|]. by eapply matches_ext.
Qed.

Lemma reachable_inv W layers s : reachable W layers s -> inv W s.
Proof.
  unfold reachable. revert s. apply rtc_ind_r.
  - apply init_inv.
  - intros y z _ Hyz IH. by eapply step_inv.
Qed.

Lemma dispatched_app (t1 t2 : list rev) :
  dispatched (t1 ++ t2) = dispatched t1 ++ dispatched t2.
Proof.
  induction t1 as [|ev t1 IH]; [done|]. destruct ev; simpl; by rewrite ?IH.
Qed.

Lemma cascade_run_progress W ls t q :
  cascade_run W (PNext ls) t = Some q -> progress ls t q.
Proof.
  revert q. induction t as [|ev t IH] using List.rev_ind; intros q Hr.
  - simpl in Hr. inversion Hr; subst. simpl. auto.
  - rewrite cascade_run_app in Hr.
    destruct (cascade_run W (PNext ls) t) as [q'|] eqn:Hq'; [|done].
    specialize (IH q' eq_refl). simpl in Hr.
    destruct (cascade_step W q' ev) as [q''|] eqn:Hs; [|done].
    inversion Hr; subst q''. clear Hr.
    destruct q' as [|r|l r|res|res|]; destruct ev as [ls'|l'|l' [f|]|[err|] res']; simpl in Hs, IH;
      try contradiction; try discriminate; repeat case_match; simplify_eq/=;
      repeat match goal with
             | H : _ <$> ?o = Some _ |- _ => destruct o eqn:?; simplify_eq/=
             end;
      rewrite ?dispatched_app; simpl.
    + (* dispatch of the first remaining layer *)
      destruct IH as [IH _]. exists (dispatched t). split; [done|exact IH].
    + (* empty queue resolved with the empty list *)
      destruct IH as [IH _]. rewrite app_nil_r in IH. rewrite app_nil_r. exact IH.
    + (* hit *)
      destruct IH as (d & Hd & Hls). rewrite app_nil_r, Hd.
      exists r. rewrite <- Hls, <- app_assoc. done.
    + (* miss: the next layer becomes the front of the queue *)
      destruct IH as (d & Hd & Hls). rewrite app_nil_r. split.
      * rewrite Hd, <- app_assoc. done.
      * right. exists t, l'. split; [done|]. rewrite Hd, last_app. done.
    + (* resolved after a hit *)
      rewrite app_nil_r. done.
Qed.

Lemma cascade_run_PInit W t p :
  cascade_run W PInit t = Some p ->
  (p = PInit /\ t = []) \/
  exists ls t', t = RLookup ls :: t' /\ cascade_run W (PNext ls) t' = Some p.
Proof.
  destruct t as [|ev t]; simpl; intros H.
  - inversion H. auto.
  - destruct ev; simpl in H; try discriminate. right. eauto.
Qed.

Lemma cascade_run_dispatch W ls t1 l t2 p :
  cascade_run W (PNext ls) (t1 ++ RDispatch l :: t2) = Some p ->
  t1 = [] \/ exists t0 l0, t1 = t0 ++ [RReply l0 None] /\
                          last (dispatched t0) = Some l0.
Proof.
  rewrite cascade_run_app. intros H.
  destruct (cascade_run W (PNext ls) t1) as [q|] eqn:Hq; [|done].
  apply cascade_run_progress in Hq. simpl in H.
  destruct q as [|[|l0 r]|l0 r|res|res|]; simpl in H; try discriminate.
  apply Hq.
Qed.

Lemma cascade_run_resolved_hit W res t p :
  cascade_run W (PResolvedHit res) t = Some p -> t = [] /\ p = PResolvedHit res.
Proof.
  destruct t as [|ev t]; simpl; [intros H; by inversion H|].
  destruct ev; discriminate.
Qed.

Lemma step_after_lookup s lat lon sl :
  alive s = true -> step s (after_lookup s lat lon sl).
Proof.
  intros Ha. unfold after_lookup.
  destruct (lookup (co s) (pool_layers s) lat lon sl) eqn:Hl. by eapply step_lookup.
Qed.

Lemma step_after_reply s pre post id l r :
  alive s = true -> inflight s = pre ++ (id, l) :: post ->
  step s (after_reply s pre post id l r).
Proof.
  intros Ha Hin. unfold after_reply.
  destruct (handleResults (co s) (mkResults id r)) eqn:Hh.
  - by eapply step_reply.
  - by eapply step_crash.
Qed.

Lemma sc1_reachable : reachable ex_wof ex_layers sc1.
Proof.
  apply (rtc_l _ _ sc1); [exact (step_after_lookup (init ex_wof ex_layers) 0 0 None eq_refl)|].
  apply rtc_refl.
Qed.

Lemma sc3_reachable : reachable ex_wof ex_layers sc3.
Proof.
  apply (rtc_l _ _ sc1); [exact (step_after_lookup (init ex_wof ex_layers) 0 0 None eq_refl)|].
  apply (rtc_l _ _ sc2); [exact (step_after_reply sc1 [] [] 0 "locality" None eq_refl eq_refl)|].
  apply (rtc_l _ _ sc3);
    [exact (step_after_reply sc2 [] [] 0 "country" (Some "300") eq_refl eq_refl)|].
  apply rtc_refl.
Qed.

Lemma sc3_trace :
  proj 0 (trace sc3) =
    [RLookup ["locality"; "country"]; RDispatch "locality";
     RReply "locality" None; RDispatch "country";
     RReply "country" (Some "300"); RRespond None [ex_country]].
Proof. vm_compute. reflexivity. Qed.

(* ------------------------------------------------------------------ *)
(** ** The cascade of a running service *)

(** C4: in every reachable state, each request has at most one search
    message in flight; the layers it dispatched so far are, in order, a
    prefix of its effective layers; while its entry is pending, those
    layers followed by the entry's queue are exactly the effective layers
    (a layer leaves the front of the queue when it is dispatched and is
    never dispatched again); and every dispatch but the first comes right
    after a miss reply for the layer dispatched before it. *)
Theorem cascade_one_dispatch_in_order (W : gmap string feature)
    (layers : list string) (s : sys) (id : nat) :
  reachable W layers s ->
  length (msgs_for id (inflight s)) <= 1 /\
  (proj id (trace s) = [] \/
   exists ls t, proj id (trace s) = RLookup ls :: t /\
     (exists r, dispatched t ++ r = ls) /\
     (forall e, responseQueue (co s) !! id = Some e ->
        dispatched t ++ search_layers e = ls) /\
     (forall t1 l t2, t = t1 ++ RDispatch l :: t2 ->
        t1 = [] \/ exists t0 l0, t1 = t0 ++ [RReply l0 None] /\
                                last (dispatched t0) = Some l0)).
Proof.
  intros Hreach. destruct (reachable_inv _ _ _ Hreach) as [Hw Hf Hu].
  destruct (Nat.lt_ge_cases id (requestCount (co s))) as [Hlt|Hge].
  2:{ destruct (Hf id Hge) as (H1 & _ & H3). rewrite H3. simpl. auto with lia. }
  destruct (Hu id Hlt) as (p & Hrun & Hm).
  destruct (cascade_run_PInit _ _ _ Hrun) as [[-> _] | (ls & t & Ht & Hrun')];
    [done|].
  pose proof (cascade_run_progress _ _ _ _ Hrun') as Hp.
  split; [|right; exists ls, t; split; [done|]; split; [|split]].
  - destruct p; simpl in Hm; try contradiction;
      destruct Hm as [_ ->]; simpl; lia.
  - destruct p as [|r|l r|res|res|]; simpl in Hm, Hp; try contradiction.
    + destruct Hp as (d & Hd & Hls). exists r. by rewrite Hd, <- app_assoc.
    + done.
    + exists []. by rewrite app_nil_r.
  - intros e He. destruct p as [|r|l r|res|res|]; simpl in Hm, Hp; try contradiction.
    + destruct Hm as ((e0 & He0 & Hse) & _). rewrite He in He0.
      injection He0 as <-. destruct Hp as (d & Hd & Hls).
      by rewrite Hse, Hd, <- app_assoc.
    + destruct Hm as [Hq _]. by rewrite He in Hq.
    + destruct Hm as [Hq _]. by rewrite (Hq e He), app_nil_r.
  - intros t1 l t2 ->. by eapply cascade_run_dispatch.
Qed.

Lemma cascade_one_dispatch_in_order_witness :
  reachable ex_wof ex_layers sc3 /\
  length (msgs_for 0 (inflight sc3)) <= 1 /\
  (proj 0 (trace sc3) = [] \/
   exists ls t, proj 0 (trace sc3) = RLookup ls :: t /\
     (exists r, dispatched t ++ r = ls) /\
     (forall e, responseQueue (co sc3) !! 0 = Some e ->
        dispatched t ++ search_layers e = ls) /\
     (forall t1 l t2, t = t1 ++ RDispatch l :: t2 ->
        t1 = [] \/ exists t0 l0, t1 = t0 ++ [RReply l0 None] /\
                                last (dispatched t0) = Some l0)).
Proof.
  split; [exact sc3_reachable|].
  exact (cascade_one_dispatch_in_order ex_wof ex_layers sc3 0 sc3_reachable).
Defined.

(** C5: once a request's reply is a hit, the only later event of that
    request is its callback, with the hierarchy assembled for the matched
    feature; no further layer is dispatched and its entry is gone. *)
Theorem first_hit_wins (W : gmap string feature) (layers : list string)
    (s : sys) (id : nat) (t1 : list rev) (l f : string) (t2 : list rev) :
  reachable W layers s ->
  proj id (trace s) = t1 ++ RReply l (Some f) :: t2 ->
  exists res, assemble W f = Some res /\ t2 = [RRespond None res] /\
    responseQueue (co s) !! id = None /\ msgs_for id (inflight s) = [].
Proof.
  intros Hreach Ht. destruct (reachable_inv _ _ _ Hreach) as [Hw Hf Hu].
  destruct (Nat.lt_ge_cases id (requestCount (co s))) as [Hlt|Hge].
  2:{ destruct (Hf id Hge) as (H1 & _ & _). rewrite Ht in H1.
      by destruct t1. }
  destruct (Hu id Hlt) as (p & Hrun & Hm).
  rewrite Ht, cascade_run_app in Hrun.
  destruct (cascade_run W PInit t1) as [q|]; [|done]. simpl in Hrun.
  destruct q as [|r|l0 r|res|res|]; simpl in Hrun; try discriminate;
    try (destruct r; discriminate).
  destruct (decide (l0 = l)); [|done].
  destruct (assemble W f) as [res|] eqn:Ha; simpl in Hrun; [|done].
  exists res. split; [done|].
  destruct t2 as [|ev t2]; simpl in Hrun.
  - inversion Hrun; subst. done.
  - destruct ev as [| | |[err|] res']; simpl in Hrun; try discriminate.
    destruct (decide (res = res')) as [<-|]; [|done].
    apply cascade_run_resolved_hit in Hrun as [-> ->]. simpl in Hm. done.
Qed.

Lemma first_hit_wins_witness :
  reachable ex_wof ex_layers sc3 /\
  proj 0 (trace sc3) =
    [RLookup ["locality"; "country"]; RDispatch "locality";
     RReply "locality" None; RDispatch "country"] ++
    RReply "country" (Some "300") :: [RRespond None [ex_country]] /\
  exists res, assemble ex_wof "300" = Some res /\
    [RRespond None [ex_country]] = [RRespond None res] /\
    responseQueue (co sc3) !! 0 = None /\ msgs_for 0 (inflight sc3) = [].
Proof.
  split; [exact sc3_reachable|]. split; [exact sc3_trace|].
  exact (first_hit_wins ex_wof ex_layers sc3 0
           [RLookup ["locality"; "country"]; RDispatch "locality";
            RReply "locality" None; RDispatch "country"]
           "country" "300" [RRespond None [ex_country]] sc3_reachable sc3_trace).
Defined.

(** C8: in any two states of the same running service, a hit on the same
    feature id for pending requests is answered with the same list: the
    dataset is never changed after startup. *)
Theorem hit_assembly_stable (W : gmap string feature) (layers : list string)
    (s1 s2 : sys) (id1 id2 : nat) (e1 e2 : entry) (f : string)
    (c1 c2 : coord) (effs1 effs2 : list effect) :
  reachable W layers s1 -> reachable W layers s2 ->
  responseQueue (co s1) !! id1 = Some e1 ->
  responseQueue (co s2) !! id2 = Some e2 ->
  handleResults (co s1) (mkResults id1 (Some f)) = Ok c1 effs1 ->
  handleResults (co s2) (mkResults id2 (Some f)) = Ok c2 effs2 ->
  exists res, assemble W f = Some res /\
    effs1 = [Respond id1 None res] /\ effs2 = [Respond id2 None res].
Proof.
  intros R1 R2 He1 He2 H1 H2.
  pose proof (inv_wof _ _ (reachable_inv _ _ _ R1)) as W1.
  pose proof (inv_wof _ _ (reachable_inv _ _ _ R2)) as W2.
  destruct (handleResults_ok_cases _ _ _ _ _ _ H1 He1)
    as [(? & _) | [(? & _) | (f1 & res1 & Hf1 & Ha1 & _ & ->)]]; [done|done|].
  destruct (handleResults_ok_cases _ _ _ _ _ _ H2 He2)
    as [(? & _) | [(? & _) | (f2 & res2 & Hf2 & Ha2 & _ & ->)]]; [done|done|].
  injection Hf1 as <-. injection Hf2 as <-.
  rewrite W1 in Ha1. rewrite W2, Ha1 in Ha2. injection Ha2 as <-.
  eauto.
Qed.

Lemma hit_assembly_stable_witness :
  reachable ex_wof ex_layers sc1 /\
  responseQueue (co sc1) !! 0 = Some (mkEntry [] (0%Z, 0%Z) ["country"]) /\
  handleResults (co sc1) (mkResults 0 (Some "101")) =
    Ok (mkCoord 1 ∅ ex_wof) [Respond 0 None [ex_locality; ex_country]] /\
  exists res, assemble ex_wof "101" = Some res /\
    [Respond 0 None [ex_locality; ex_country]] = [Respond 0 None res] /\
    [Respond 0 None [ex_locality; ex_country]] = [Respond 0 None res].
Proof.
  assert (He : responseQueue (co sc1) !! 0 = Some (mkEntry [] (0%Z, 0%Z) ["country"]))
    by reflexivity.
  assert (Hh : handleResults (co sc1) (mkResults 0 (Some "101")) =
                 Ok (mkCoord 1 ∅ ex_wof) [Respond 0 None [ex_locality; ex_country]])
    by reflexivity.
  split; [exact sc1_reachable|]. split; [exact He|]. split; [exact Hh|].
  exact (hit_assembly_stable ex_wof ex_layers sc1 sc1 0 0 _ _ "101" _ _ _ _
           sc1_reachable sc1_reachable He He Hh Hh).
Defined.

Lemma postal_lookup_spec_witness :
  ex_tables !! "USA" = Some ex_usa_table /\
  ex_usa_table !! Postal.normalizePostcode "CA 94610-2737" (Some "USA") = Some [ex_candidate] /\
  Postal.lookup ex_tables "USA" "CA 94610-2737" = Some [ex_candidate] /\
  Postal.lookup ex_tables "NZL" "6011" = None.
Proof.
  assert (H1 : ex_tables !! "USA" = Some ex_usa_table) by reflexivity.
  assert (H2 : ex_usa_table !! Postal.normalizePostcode "CA 94610-2737" (Some "USA")
                 = Some [ex_candidate]) by reflexivity.
  split; [exact H1|]. split; [exact H2|]. split.
  - exact (proj2 (proj2 (postal_lookup_spec ex_tables "USA" "CA 94610-2737"))
             ex_usa_table [ex_candidate] H1 H2).
  - apply (proj1 (postal_lookup_spec ex_tables "NZL" "6011")). reflexivity.
Defined.

(* ------------------------------------------------------------------ *)
(** ** Loading the postal-code tables *)

Module PostalLoadFacts.
Import Postal PostalLoad.













Lemma group_rows_go rows (m0 : gmap string (list candidate)) k :
  fold_left (fun m ln =>
      let k := normalizePostcode (default "" (l_postalcode ln)) None in
      <[k := default [] (m !! k) ++ [candidate_of_line ln]]> m) rows m0 !! k =
  match List.filter (fun ln => String.eqb
                 (normalizePostcode (default "" (l_postalcode ln)) None) k) rows with
  | [] => m0 !! k
  | xs => Some (default [] (m0 !! k) ++ map candidate_of_line xs)
  end.
Proof.
  revert m0. induction rows as [|ln rows IH]; intros m0; simpl; [done|].
  rewrite IH.
  destruct (String.eqb_spec (normalizePostcode (default "" (l_postalcode ln)) None) k)
    as [<-|Hne].
  - rewrite lookup_insert_eq.
    destruct (List.filter _ rows); simpl; by rewrite <- ?app_assoc.
  - rewrite lookup_insert_ne by done. done.
Qed.

End PostalLoadFacts.

(* ------------------------------------------------------------------ *)
(** ** Postal-code normalization *)

Module NormalizeFacts.
Import Postal PostalRules.

Lemma to_upper_idem c : to_upper (to_upper c) = to_upper c.
Proof. destruct c as [[] [] [] [] [] [] [] []]; reflexivity. Qed.

Lemma is_space_to_upper c : is_space (to_upper c) = is_space c.
Proof. destruct c as [[] [] [] [] [] [] [] []]; reflexivity. Qed.

Lemma is_digit_not_dash c : is_digit c = true -> Ascii.eqb c "-" = false.
Proof. destruct c as [[] [] [] [] [] [] [] []]; cbv; intros H; congruence. Qed.

Lemma generic_idem s : generic (generic s) = generic s.
Proof.
  unfold generic. induction s as [|c s IH]; [done|]. simpl.
  destruct (is_space (to_upper c)) eqn:Hs; [exact IH|]. simpl.
  by rewrite to_upper_idem, Hs, IH.
Qed.

Lemma generic_forallb (P : ascii -> bool) s :
  (forall c, is_space (to_upper c) = false -> P (to_upper c) = true) ->
  str_forallb P (generic s) = true.
Proof.
  intros HP. unfold generic. induction s as [|c s IH]; [done|]. simpl.
  destruct (is_space (to_upper c)) eqn:Hs; [exact IH|]. simpl.
  by rewrite HP, IH.
Qed.

Lemma str_remove_nondigit_digits s :
  str_forallb is_digit (str_remove (fun c => negb (is_digit c)) s) = true.
Proof.
  induction s as [|c s IH]; [done|]. simpl.
  destruct (is_digit c) eqn:Hd; simpl; [by rewrite Hd|exact IH].
Qed.

Lemma str_remove_nondigit_id s :
  str_forallb is_digit s = true -> str_remove (fun c => negb (is_digit c)) s = s.
Proof.
  induction s as [|c s IH]; [done|]. simpl. intros [Hc Hs]%andb_prop.
  rewrite Hc. simpl. by rewrite IH.
Qed.

Lemma strip_dash_tail_digits s :
  str_forallb is_digit s = true -> strip_dash_tail s = s.
Proof.
  induction s as [|c s IH]; [done|]. simpl. intros [Hc Hs]%andb_prop.
  rewrite is_digit_not_dash by done. simpl. by rewrite IH.
Qed.

Lemma substring_0_forallb p n s :
  str_forallb p s = true ->
  str_forallb p (substring 0 n s) = true /\ String.length (substring 0 n s) <= n.
Proof.
  revert n. induction s as [|c s IH]; intros n Hs.
  - destruct n; simpl; split; auto with lia.
  - simpl in Hs. apply andb_prop in Hs as [Hc Hs].
    destruct n as [|n]; simpl; [split; auto with lia|].
    rewrite Hc. destruct (IH n Hs) as [H1 H2]. split; [done|lia].
Qed.

Lemma substring_0_id n s : String.length s <= n -> substring 0 n s = s.
Proof.
  revert n. induction s as [|c s IH]; intros n Hn; [by destruct n|].
  destruct n as [|n]; simpl in *; [lia|]. rewrite IH by lia. done.
Qed.

Lemma five_digits_spec s m :
  five_digits s = Some m -> str_forallb is_digit m = true /\ String.length m = 5.
Proof.
  unfold five_digits. intros H.
  destruct s as [|a [|b [|c [|d [|e s]]]]]; try discriminate.
  destruct (is_digit a) eqn:?, (is_digit b) eqn:?, (is_digit c) eqn:?,
           (is_digit d) eqn:?, (is_digit e) eqn:?; simpl in H; try discriminate.
  injection H as <-. split; [|reflexivity]. simpl.
  repeat match goal with H : is_digit _ = true |- _ => rewrite H; clear H end.
  reflexivity.
Qed.

Lemma match_5digits_eq s :
  match_5digits s =
    match five_digits s with
    | Some m => Some m
    | None => match s with EmptyString => None | String _ s' => match_5digits s' end
    end.
Proof. destruct s; reflexivity. Qed.

Lemma match_5digits_spec s m :
  match_5digits s = Some m -> str_forallb is_digit m = true /\ String.length m = 5.
Proof.
  induction s as [|c s IH]; rewrite match_5digits_eq.
  - simpl. discriminate.
  - destruct (five_digits (String c s)) eqn:H5.
    + intros [= <-]. by eapply five_digits_spec.
    + exact IH.
Qed.

Lemma match_5digits_short s : String.length s < 5 -> match_5digits s = None.
Proof.
  destruct s as [|a [|b [|c [|d [|e s]]]]]; simpl; intros Hl; try lia; reflexivity.
Qed.

Lemma five_digits_self d :
  str_forallb is_digit d = true -> String.length d = 5 -> five_digits d = Some d.
Proof.
  destruct d as [|a [|b [|c [|d [|e [|x y]]]]]]; simpl; intros Hd Hl; try lia.
  repeat (apply andb_prop in Hd as [? Hd]). unfold five_digits.
  repeat match goal with H : is_digit _ = true |- _ => rewrite H; clear H end.
  reflexivity.
Qed.

Lemma zip_digits s : str_forallb is_digit (zip s) = true /\ String.length (zip s) <= 5.
Proof.
  unfold zip. destruct (match_5digits s) as [m|] eqn:Hm.
  - apply match_5digits_spec in Hm as [H1 H2]. split; [done|lia].
  - apply substring_0_forallb, str_remove_nondigit_digits.
Qed.

Lemma zip_idem s : zip (zip s) = zip s.
Proof.
  destruct (zip_digits s) as [Hd Hl].
  destruct (decide (String.length (zip s) = 5)) as [H5|H5].
  - unfold zip at 1. rewrite match_5digits_eq, five_digits_self by done. done.
  - unfold zip at 1. rewrite match_5digits_short by lia.
    rewrite strip_dash_tail_digits, str_remove_nondigit_id by done.
    apply substring_0_id. done.
Qed.

Lemma normalizePostcode_cases pc iso :
  normalizePostcode pc iso =
    if match iso with Some i => mem i USA_ISO_CODES | None => false end
    then zip pc else generic pc.
Proof. reflexivity. Qed.

Lemma five_digits_nondigit a s : is_digit a = false -> five_digits (String a s) = None.
Proof.
  intros Ha. unfold five_digits.
  destruct s as [|b [|c [|d [|e s]]]]; try reflexivity. by rewrite Ha.
Qed.

Lemma five_digits_app d q : five_digits d = Some d -> five_digits (d ++ q)%string = Some d.
Proof.
  intros H. pose proof (five_digits_spec _ _ H) as [Hd Hl].
  destruct d as [|a [|b [|c [|d [|e [|x y]]]]]]; simpl in Hl; try lia.
  exact H.
Qed.

Lemma match_5digits_prefix p d q :
  str_forallb (fun c => negb (is_digit c)) p = true ->
  five_digits d = Some d ->
  match_5digits (p ++ d ++ q)%string = Some d.
Proof.
  intros Hp Hd. induction p as [|c p IH]; simpl.
  - change (match_5digits (d ++ q)%string = Some d).
    rewrite match_5digits_eq, five_digits_app by done. done.
  - simpl in Hp. apply andb_prop in Hp as [Hc Hp].
    change (match_5digits (String c (p ++ d ++ q)%string) = Some d).
    rewrite match_5digits_eq, five_digits_nondigit by (by destruct (is_digit c)).
    by apply IH.
Qed.

End NormalizeFacts.

Module PostcodeProperties.
Import Postal PostalRules NormalizeFacts.

(** normalizePostcode is idempotent for every country code: a code that
    is already normalized is left as it is, under the zip-system rule
    (5 digits at most) as under the generic rule (upper case, no
    whitespace). *)
Theorem normalizePostcode_idempotent (pc : string) (iso : option string) :
  normalizePostcode (normalizePostcode pc iso) iso = normalizePostcode pc iso.
Proof.
  rewrite !normalizePostcode_cases.
  destruct (match iso with Some i => mem i USA_ISO_CODES | None => false end).
  - apply zip_idem.
  - apply generic_idem.
Qed.

(** lookup gives the same answer for a postal code and for its
    normalized form. *)
Theorem lookup_normalized_input (tables : gmap string (gmap string (list candidate)))
    (isocode postalcode : string) :
  lookup tables isocode (normalizePostcode postalcode (Some isocode)) =
  lookup tables isocode postalcode.
Proof.
  unfold lookup. rewrite !(normalizePostcode_cases _ (Some isocode)).
  destruct (mem isocode USA_ISO_CODES); [by rewrite zip_idem|by rewrite generic_idem].
Qed.

(** For a country of the USA zip system, the normalized code consists of
    ASCII digits only and has at most five characters, whatever the
    input. *)
Theorem usa_normalize_digits (pc iso : string) :
  mem iso USA_ISO_CODES = true ->
  str_forallb is_digit (normalizePostcode pc (Some iso)) = true /\
  String.length (normalizePostcode pc (Some iso)) <= 5.
Proof.
  intros Hiso. rewrite normalizePostcode_cases, Hiso. apply zip_digits.
Qed.

Lemma usa_normalize_digits_witness :
  mem "PRI" USA_ISO_CODES = true /\
  str_forallb is_digit (normalizePostcode "PR 00921-1234x" (Some "PRI")) = true /\
  String.length (normalizePostcode "PR 00921-1234x" (Some "PRI")) <= 5.
Proof.
  split; [reflexivity|].
  apply (usa_normalize_digits "PR 00921-1234x" "PRI"). reflexivity.
Defined.

(** Outside the USA zip system, the normalized code contains no
    whitespace and no lower-case ASCII letter. *)
Theorem generic_normalize_shape (pc : string) (iso : option string) :
  match iso with Some i => mem i USA_ISO_CODES | None => false end = false ->
  str_forallb (fun c => negb (is_space c)) (normalizePostcode pc iso) = true /\
  str_forallb (fun c => let n := nat_of_ascii c in
                        negb (Nat.leb 97 n && Nat.leb n 122))
    (normalizePostcode pc iso) = true.
Proof.
  intros Hiso. rewrite normalizePostcode_cases, Hiso. split.
  - apply generic_forallb. intros c ->. reflexivity.
  - apply generic_forallb. intros c _.
    destruct c as [[] [] [] [] [] [] [] []]; reflexivity.
Qed.

Lemma generic_normalize_shape_witness :
  match Some "NZL" with Some i => mem i USA_ISO_CODES | None => false end = false /\
  str_forallb (fun c => negb (is_space c)) (normalizePostcode " 6011 x" (Some "NZL")) = true /\
  str_forallb (fun c => let n := nat_of_ascii c in
                        negb (Nat.leb 97 n && Nat.leb n 122))
    (normalizePostcode " 6011 x" (Some "NZL")) = true.
Proof.
  split; [reflexivity|].
  apply (generic_normalize_shape " 6011 x" (Some "NZL")). reflexivity.
Defined.

(** Zip system: after a prefix without digits (such as a state code),
    the first five digits are the normalized code, whatever follows them
    (such as a ZIP+4 extension). *)
Theorem usa_prefix_then_zip (p d q iso : string) :
  mem iso USA_ISO_CODES = true ->
  str_forallb (fun c => negb (is_digit c)) p = true ->
  five_digits d = Some d ->
  normalizePostcode (p ++ d ++ q)%string (Some iso) = d.
Proof.
  intros Hiso Hp Hd. rewrite normalizePostcode_cases, Hiso. unfold zip.
  by rewrite match_5digits_prefix.
Qed.

Lemma usa_prefix_then_zip_witness :
  mem "USA" USA_ISO_CODES = true /\
  str_forallb (fun c => negb (is_digit c)) "CA " = true /\
  five_digits "94610" = Some "94610" /\
  normalizePostcode ("CA " ++ "94610" ++ "-2737")%string (Some "USA") = "94610".
Proof.
  split; [reflexivity|]. split; [reflexivity|]. split; [reflexivity|].
  apply (usa_prefix_then_zip "CA " "94610" "-2737" "USA"); reflexivity.
Defined.

(** Zip system: an entry of a country's table whose key is not made of at
    most five digits is never returned by lookup, for any postal code
    (loadTable keys its tables with the generic rule, so a ZIP+4 row
    such as "94610-2737" is such an entry). *)
Theorem usa_lookup_ignores_nonzip_keys
    (tables : gmap string (gmap string (list candidate)))
    (iso k pc : string) (t : gmap string (list candidate)) (v : list candidate) :
  mem iso USA_ISO_CODES = true ->
  str_forallb is_digit k = false \/ 5 < String.length k ->
  lookup (<[iso := <[k := v]> t]> tables) iso pc = lookup (<[iso := t]> tables) iso pc.
Proof.
  intros Hiso Hk. unfold lookup. rewrite !lookup_insert_eq.
  rewrite normalizePostcode_cases, Hiso. destruct (zip_digits pc) as [Hd Hl].
  rewrite lookup_insert_ne; [done|]. intros ->. destruct Hk; [congruence|lia].
Qed.

Lemma usa_lookup_ignores_nonzip_keys_witness :
  mem "USA" USA_ISO_CODES = true /\
  (str_forallb is_digit "94610-2737" = false \/ 5 < String.length "94610-2737") /\
  lookup (<["USA" := <["94610-2737" := [ex_candidate]]> ∅]> ∅) "USA" "94610-2737" =
  lookup (<["USA" := ∅]> ∅) "USA" "94610-2737".
Proof.
  split; [reflexivity|]. split; [left; reflexivity|].
  apply usa_lookup_ignores_nonzip_keys; [reflexivity|left; reflexivity].
Defined.

End PostcodeProperties.

(* ------------------------------------------------------------------ *)
(** ** Properties of the loaded tables *)

Module LoadTableProperties.
Import Postal PostalLoad PostalLoadFacts.

Lemma group_rows_lookup rows k :
  group_rows rows !! k =
  match List.filter (fun ln => String.eqb
           (normalizePostcode (default "" (l_postalcode ln)) None) k) rows with
  | [] => None
  | xs => Some (map candidate_of_line xs)
  end.
Proof.
  unfold group_rows. rewrite group_rows_go, lookup_empty.
  by destruct (List.filter _ rows).
Qed.

Lemma filter_nonempty {A} (f : A -> bool) (l : list A) :
  List.filter f l <> [] <-> exists x, x ∈ l /\ f x = true.
Proof.
  split.
  - destruct (List.filter f l) as [|x xs] eqn:Hf; [done|]. intros _.
    assert (Hx : In x (List.filter f l)) by (rewrite Hf; left; done).
    apply filter_In in Hx as [Hx Hfx]. exists x. by rewrite list_elem_of_In.
  - intros (x & Hx & Hfx) Hf. rewrite list_elem_of_In in Hx.
    assert (H : In x (List.filter f l)) by (by apply filter_In).
    rewrite Hf in H. done.
Qed.

Lemma filter_lines_elem ls kept ln :
  filter_lines ls = Some kept ->
  ln ∈ kept <-> ln ∈ ls /\ mandatory_ok ln = Some true.
Proof.
  revert kept. induction ls as [|l0 ls IH]; intros kept H; simpl in H.
  - injection H as <-. split; [intros Hin; inversion Hin|intros [Hin _]; inversion Hin].
  - destruct (mandatory_ok l0) as [b|] eqn:Hb; [|done].
    destruct (filter_lines ls) as [rest|]; [|done]. injection H as <-.
    specialize (IH rest eq_refl). rewrite elem_of_cons.
    destruct b.
    + rewrite elem_of_cons, IH. split.
      * intros [->|[? ?]]; auto.
      * intros [[->|?] ?]; auto.
    + rewrite IH. split.
      * intros [? ?]; auto.
      * intros [[->|?] ?]; [congruence|auto].
Qed.

Lemma filter_lines_None ls :
  filter_lines ls = None <-> exists ln, ln ∈ ls /\ mandatory_ok ln = None.
Proof.
  induction ls as [|l0 ls IH]; simpl.
  - split; [done|]. intros (ln & Hin & _). inversion Hin.
  - destruct (mandatory_ok l0) as [b|] eqn:Hb.
    + destruct (filter_lines ls) as [rest|] eqn:Hr.
      * split; [done|]. intros (ln & Hin & Hn).
        apply elem_of_cons in Hin as [->|Hin]; [congruence|].
        assert (Hc : Some rest = None) by (apply IH; eauto). done.
      * split; [|done]. intros _. destruct (proj1 IH eq_refl) as (ln & ? & ?).
        exists ln. split; [by apply elem_of_cons; right|done].
    + split; [|done]. intros _. exists l0. split; [apply elem_of_cons; auto|done].
Qed.

Lemma parse_elem ls dw r ln' :
  parse ls dw = Some r ->
  ln' ∈ r <-> exists ln, ln ∈ ls /\ mandatory_ok ln = Some true /\
                        ln' = default_weight dw ln.
Proof.
  unfold parse. destruct (filter_lines ls) as [kept|] eqn:Hk; [|done].
  intros [= <-]. rewrite list_elem_of_fmap. split.
  - intros (ln & -> & Hin). apply (filter_lines_elem _ _ _ Hk) in Hin. naive_solver.
  - intros (ln & Hin & Hok & ->). exists ln. split; [done|].
    by apply (filter_lines_elem _ _ _ Hk).
Qed.

Lemma default_weight_columns dw ln :
  l_postalcode (default_weight dw ln) = l_postalcode ln /\
  l_wofid (default_weight dw ln) = l_wofid ln /\
  l_name (default_weight dw ln) = l_name ln /\
  l_abbr (default_weight dw ln) = l_abbr ln /\
  l_placetype (default_weight dw ln) = l_placetype ln /\
  l_weight (default_weight dw ln) =
    match l_weight ln with None => dw | Some w => Some w end.
Proof.
  unfold default_weight. destruct (l_weight ln) eqn:Hw, dw; simpl; rewrite ?Hw; repeat split.
Qed.


Lemma mandatory_ok_true ln :
  mandatory_ok ln = Some true <->
  exists p w n, l_postalcode ln = Some p /\ l_wofid ln = Some w /\
    l_name ln = Some n /\ p <> "" /\ w <> "" /\ n <> "".
Proof.
  unfold mandatory_ok.
  destruct (l_postalcode ln) as [p|]; [|split; [done|naive_solver]].
  destruct (String.eqb_spec p "") as [Hp|Hp]; [split; [done|naive_solver]|].
  destruct (l_wofid ln) as [w|]; [|split; [done|naive_solver]].
  destruct (String.eqb_spec w "") as [Hw|Hw]; [split; [done|naive_solver]|].
  destruct (l_name ln) as [n|]; [|split; [done|naive_solver]].
  destruct (String.eqb_spec n "") as [Hn|Hn]; simpl; naive_solver.
Qed.




Lemma loadTable_Some base override m :
  loadTable base override = Some m ->
  exists rb ro,
    match base with Some ls => parse ls None | None => Some [] end = Some rb /\
    match override with Some ls => parse ls (Some MAX_SAFE_INTEGER) | None => Some [] end
      = Some ro /\
    m = postprocess <$> group_rows (rb ++ ro).
Proof.
  unfold loadTable.
  destruct (match base with Some ls => parse ls None | None => Some [] end) as [rb|];
    [|done].
  destruct (match override with Some ls => parse ls (Some MAX_SAFE_INTEGER)
            | None => Some [] end) as [ro|]; [|done].
  intros [= <-]. eauto.
Qed.

Lemma parsed_rows_elem (files : option (list line)) dw rows ln' :
  match files with Some ls => parse ls dw | None => Some [] end = Some rows ->
  ln' ∈ rows <-> exists ln, ln ∈ default [] files /\ mandatory_ok ln = Some true /\
                          ln' = default_weight dw ln.
Proof.
  destruct files as [ls|]; simpl.
  - apply parse_elem.
  - intros [= <-]. split; [intros H; inversion H|intros (? & H & _); inversion H].
Qed.


Lemma str_rev_involutive s : str_rev (str_rev s) = s.
Proof.
  unfold str_rev. rewrite list_ascii_of_string_of_list_ascii, rev_involutive.
  apply string_of_list_ascii_of_string.
Qed.

(** The entry of a postal code in a loaded table: the post-processed
    candidates of the accepted rows whose code normalizes to it, base
    file rows first, each file in line order. *)
Theorem loadTable_entry (base override : option (list line)) m rb ro k :
  loadTable base override = Some m ->
  match base with Some ls => parse ls None | None => Some [] end = Some rb ->
  match override with Some ls => parse ls (Some MAX_SAFE_INTEGER) | None => Some [] end
    = Some ro ->
  m !! k =
  match List.filter (fun ln => String.eqb
           (normalizePostcode (default "" (l_postalcode ln)) None) k) (rb ++ ro) with
  | [] => None
  | xs => Some (postprocess (map candidate_of_line xs))
  end.
Proof.
  intros Hl Hb Ho. destruct (loadTable_Some _ _ _ Hl) as (rb' & ro' & Hb' & Ho' & ->).
  rewrite Hb in Hb'. rewrite Ho in Ho'. injection Hb' as <-. injection Ho' as <-.
  rewrite lookup_fmap, group_rows_lookup. by destruct (List.filter _ _).
Qed.

Lemma loadTable_entry_witness :
  exists m, loadTable (Some ex_base_lines) (Some ex_override_lines) = Some m /\
  parse ex_base_lines None = Some ex_base_lines /\
  parse ex_override_lines (Some MAX_SAFE_INTEGER) =
    Some (map (default_weight (Some MAX_SAFE_INTEGER)) ex_override_lines) /\
  m !! "94610" =
  match List.filter (fun ln => String.eqb
           (normalizePostcode (default "" (l_postalcode ln)) None) "94610")
          (ex_base_lines ++ map (default_weight (Some MAX_SAFE_INTEGER)) ex_override_lines) with
  | [] => None
  | xs => Some (postprocess (map candidate_of_line xs))
  end.
Proof.
  eexists. split; [reflexivity|]. split; [reflexivity|]. split; [reflexivity|].
  apply (loadTable_entry (Some ex_base_lines) (Some ex_override_lines)); reflexivity.
Defined.



(** The keys of a loaded table are exactly the normalized postal codes
    (generic rule, no country code) of the lines that parse accepts, from
    either file. *)
Theorem loadTable_keys (base override : option (list line)) m k :
  loadTable base override = Some m ->
  (is_Some (m !! k) <->
   exists ln, ln ∈ default [] base ++ default [] override /\
     mandatory_ok ln = Some true /\
     normalizePostcode (default "" (l_postalcode ln)) None = k).
Proof.
  intros Hl. destruct (loadTable_Some _ _ _ Hl) as (rb & ro & Hb & Ho & ->).
  rewrite lookup_fmap, group_rows_lookup, fmap_is_Some.
  transitivity (List.filter (fun ln => String.eqb
     (normalizePostcode (default "" (l_postalcode ln)) None) k) (rb ++ ro) <> []).
  { destruct (List.filter _ _); split; try done; intros _; eauto. }
  rewrite filter_nonempty. split.
  - intros (ln' & Hin & Hk). apply String.eqb_eq in Hk.
    apply elem_of_app in Hin as [Hin|Hin].
    + apply (parsed_rows_elem _ _ _ _ Hb) in Hin as (ln & Hin & Hok & ->).
      destruct (default_weight_columns None ln) as (Hp & _). rewrite Hp in Hk.
      exists ln. rewrite elem_of_app. auto.
    + apply (parsed_rows_elem _ _ _ _ Ho) in Hin as (ln & Hin & Hok & ->).
      destruct (default_weight_columns (Some MAX_SAFE_INTEGER) ln) as (Hp & _).
      rewrite Hp in Hk. exists ln. rewrite elem_of_app. auto.
  - intros (ln & Hin & Hok & Hk). apply elem_of_app in Hin as [Hin|Hin].
    + exists (default_weight None ln). rewrite elem_of_app. split.
      * left. apply (parsed_rows_elem _ _ _ _ Hb). eauto.
      * rewrite (proj1 (default_weight_columns _ _)), Hk. apply String.eqb_refl.
    + exists (default_weight (Some MAX_SAFE_INTEGER) ln). rewrite elem_of_app. split.
      * right. apply (parsed_rows_elem _ _ _ _ Ho). eauto.
      * rewrite (proj1 (default_weight_columns _ _)), Hk. apply String.eqb_refl.
Qed.

Lemma loadTable_keys_witness :
  exists m, loadTable (Some ex_base_lines) (Some ex_override_lines) = Some m /\
  (is_Some (m !! "94610-2737") <->
   exists ln, ln ∈ default [] (Some ex_base_lines) ++ default [] (Some ex_override_lines) /\
     mandatory_ok ln = Some true /\
     normalizePostcode (default "" (l_postalcode ln)) None = "94610-2737").
Proof.
  eexists. split; [reflexivity|]. apply loadTable_keys. reflexivity.
Defined.

(** parse throws exactly when some line of the file lacks a mandatory
    column that the check reads: [line.postalcode], then [line.wofid]
    if the postal code is non-empty, then [line.name] if the wofid is
    non-empty. *)
Theorem parse_throws_iff (ls : list line) (dw : option Z) :
  parse ls dw = None <-> exists ln, ln ∈ ls /\ mandatory_ok ln = None.
Proof.
  rewrite <- filter_lines_None. unfold parse.
  destruct (filter_lines ls); split; congruence.
Qed.

(** The lines parse returns have a non-empty postal code, wofid and
    name, and a line is left without weight only when no default weight
    is given. *)
Theorem parse_kept_clean (ls : list line) (dw : option Z) kept ln :
  parse ls dw = Some kept -> ln ∈ kept ->
  (exists p w n, l_postalcode ln = Some p /\ l_wofid ln = Some w /\
     l_name ln = Some n /\ p <> "" /\ w <> "" /\ n <> "") /\
  (l_weight ln = None -> dw = None).
Proof.
  intros Hp Hin. apply (parse_elem _ _ _ _ Hp) in Hin as (ln0 & _ & Hok & ->).
  destruct (default_weight_columns dw ln0) as (H1 & H2 & H3 & _ & _ & H6).
  split.
  - rewrite H1, H2, H3. by apply mandatory_ok_true.
  - rewrite H6. destruct (l_weight ln0); simpl; congruence.
Qed.

Lemma parse_kept_clean_witness :
  parse ex_override_lines (Some MAX_SAFE_INTEGER) =
    Some (map (default_weight (Some MAX_SAFE_INTEGER)) ex_override_lines) /\
  (exists p w n, Some "94610" = Some p /\ Some "85921877" = Some w /\
     Some "Berkeley" = Some n /\ p <> "" /\ w <> "" /\ n <> "") /\
  (Some MAX_SAFE_INTEGER = None -> Some MAX_SAFE_INTEGER = None).
Proof.
  assert (Hp : parse ex_override_lines (Some MAX_SAFE_INTEGER) =
    Some (map (default_weight (Some MAX_SAFE_INTEGER)) ex_override_lines)) by reflexivity.
  split; [exact Hp|].
  exact (parse_kept_clean ex_override_lines (Some MAX_SAFE_INTEGER) _
           (default_weight (Some MAX_SAFE_INTEGER)
              (mkLine (Some "94610") (Some "85921877") (Some "Berkeley") None None None))
           Hp ltac:(simpl; left)).
Defined.





(** The validity filter of loadTable (lines 89-93) never removes the
    record of an accepted line whose wofid and name fields are trimmed,
    as csv-parse's [trim: true] makes them; the record's name is the
    field itself. *)
Theorem trimmed_rows_stay_valid ln w n :
  mandatory_ok ln = Some true -> l_wofid ln = Some w -> l_name ln = Some n ->
  trimmed w = true -> trimmed n = true ->
  valid (candidate_of_line ln) = true /\ name (candidate_of_line ln) = n.
Proof.
  intros Hok Hw Hn Tw Tn.
  apply mandatory_ok_true in Hok as (p' & w' & n' & _ & Hw' & Hn' & _ & Hwne & Hnne).
  rewrite Hw in Hw'. injection Hw' as <-. rewrite Hn in Hn'. injection Hn' as <-.
  assert (Hname : trim n = n).
  { unfold trim. destruct n as [|c n0]; [done|].
    unfold trimmed in Tn. apply andb_prop in Tn as [T1 T2].
    simpl trim_left at 2. apply negb_true_iff in T1. rewrite T1.
    destruct (str_rev (String c n0)) as [|c' r] eqn:Hr; simpl.
    - rewrite <- Hr. apply str_rev_involutive.
    - apply negb_true_iff in T2. rewrite T2, <- Hr. apply str_rev_involutive. }
  unfold valid, candidate_of_line. rewrite Hw, Hn. simpl. rewrite Hname. split; [|done].
  destruct w as [|c w0]; [done|]. unfold trimmed in Tw.
  apply andb_prop in Tw as [T1 _]. apply negb_true_iff in T1. simpl. rewrite T1.
  destruct n as [|d n0]; done.
Qed.

Lemma trimmed_rows_stay_valid_witness :
  mandatory_ok (mkLine (Some "94610") (Some "859 22583") (Some "Oakland") None None None)
    = Some true /\
  trimmed "859 22583" = true /\ trimmed "Oakland" = true /\
  valid (candidate_of_line
           (mkLine (Some "94610") (Some "859 22583") (Some "Oakland") None None None)) = true /\
  name (candidate_of_line
          (mkLine (Some "94610") (Some "859 22583") (Some "Oakland") None None None))
    = "Oakland".
Proof.
  split; [reflexivity|]. split; [reflexivity|]. split; [reflexivity|].
  apply (trimmed_rows_stay_valid _ "859 22583" "Oakland"); reflexivity.
Defined.









End LoadTableProperties.

(* ------------------------------------------------------------------ *)
(** ** The coordinator: further properties *)

Module ServiceProperties.

Lemma intersection_go_sublist a b seen : sublist (intersection_go a b seen) a.
Proof.
  revert seen. induction a as [|x a IH]; intros seen; simpl; [constructor|].
  destruct (mem x b && negb (mem x seen)).
  - apply sublist_skip, IH.
  - apply sublist_cons, IH.
Qed.

Lemma lookup_layers_sub layers sl : sublist (lookup_layers layers sl) layers.
Proof.
  destruct sl as [s|]; simpl; [apply intersection_go_sublist|reflexivity].
Qed.

Lemma msgs_for_elem id l m : (id, l) ∈ m -> l ∈ msgs_for id m.
Proof.
  induction m as [|[i l'] m IH]; intros H; [inversion H|]. simpl.
  apply elem_of_cons in H as [H|H].
  - injection H as -> ->. rewrite Nat.eqb_refl. apply elem_of_cons. auto.
  - destruct (Nat.eqb i id); [apply elem_of_cons; right|]; auto.
Qed.

Lemma respond_step W q err res q' :
  cascade_step W q (RRespond err res) = Some q' ->
  err = None /\ forall t p, cascade_run W q' t = Some p -> t = [].
Proof.
  destruct q as [|[|l r]|l r|res0|res0|]; simpl; try discriminate.
  - destruct err, res; intros Heq; simplify_eq/=. split; [done|].
    intros [|ev t] p; simpl; [done|]. destruct ev; discriminate.
  - destruct err; [discriminate|]. case_decide; [|discriminate].
    intros Heq; simplify_eq/=. split; [done|].
    intros t p Hr. by apply cascade_run_resolved_hit in Hr as [-> _].
Qed.

Lemma cascade_run_respond_last W q t1 err res t2 p :
  cascade_run W q (t1 ++ RRespond err res :: t2) = Some p ->
  t2 = [] /\ err = None /\ (forall err' res', RRespond err' res' ∉ t1).
Proof.
  revert q. induction t1 as [|ev t1 IH]; intros q; simpl.
  - destruct (cascade_step W q (RRespond err res)) as [q'|] eqn:Hs; [|done].
    intros Hr. apply respond_step in Hs as [-> Hfin]. apply Hfin in Hr.
    split; [done|]. split; [done|]. intros ? ? Hin. inversion Hin.
  - destruct (cascade_step W q ev) as [q'|] eqn:Hs; [|done].
    intros Hr. destruct (IH q' Hr) as (-> & -> & Hno). split; [done|]. split; [done|].
    intros err' res' Hin. apply elem_of_cons in Hin as [<-|Hin]; [|by eapply Hno].
    apply respond_step in Hs as [_ Hfin]. apply Hfin in Hr. by destruct t1.
Qed.

Lemma load_all_go ds acc id :
  fold_left (fun wof d => d ∪ wof) ds acc !! id =
  match last (omap (fun d : gmap string feature => d !! id) ds) with
  | Some r => Some r
  | None => acc !! id
  end.
Proof.
  revert acc. induction ds as [|d ds IH]; intros acc; simpl; [done|].
  rewrite IH.
  change (list_omap (gmap string feature) feature (fun d : gmap string feature => d !! id) ds)
    with (omap (fun d : gmap string feature => d !! id) ds).
  destruct (d !! id) as [r|] eqn:Hd.
  - rewrite last_cons. destruct (last (omap _ ds)); [done|].
    by apply lookup_union_Some_l.
  - destruct (last (omap _ ds)); [done|]. by rewrite lookup_union_r.
Qed.

(** handleResults throws exactly on a hit for a pending request whose
    feature id is not in the dataset; every other message is handled. *)
Theorem handleResults_throws_iff (c : coord) (msg : results_msg) :
  handleResults c msg = Throws <->
  is_Some (responseQueue c !! msg_id msg) /\
  exists f, msg_results msg = Some f /\ wofData c !! f = None.
Proof.
  unfold handleResults, assemble.
  destruct (responseQueue c !! msg_id msg) as [e|];
    [|split; [discriminate|intros [[? ?] _]; discriminate]].
  destruct (msg_results msg) as [f|];
    [|split; [destruct (search_layers e); discriminate|naive_solver]].
  destruct (wofData c !! f) as [r|] eqn:Hr.
  - split; [destruct (Hierarchy r); discriminate|].
    intros (_ & f' & [= <-] & Hf). congruence.
  - split; [|done]. intros _. split; [eexists; done|eauto].
Qed.

(** In a running service the duplicate-id guard of lookup (index.js
    lines 73-77) never fires: the next request id has no pending entry,
    and a lookup logs no error. *)
Theorem lookup_guard_never_fires (W : gmap string feature) (layers : list string)
    (s : sys) lat lon sl c' effs :
  reachable W layers s ->
  lookup (co s) (pool_layers s) lat lon sl = (c', effs) ->
  responseQueue (co s) !! requestCount (co s) = None /\
  (forall i, LogError i ∉ effs).
Proof.
  intros Hr Hl. destruct (reachable_inv _ _ _ Hr) as [_ Hf _].
  destruct (Hf _ (le_n _)) as (_ & Hq & _). split; [done|].
  destruct (lookup_cases _ _ _ _ _ _ _ Hl Hq) as [(_ & _ & ->)|(l & rest & _ & _ & ->)];
    intros i Hi; apply list_elem_of_singleton in Hi; discriminate.
Qed.

Lemma lookup_guard_never_fires_witness :
  exists c' effs,
  reachable ex_wof ex_layers sc1 /\
  lookup (co sc1) (pool_layers sc1) 5 6 None = (c', effs) /\
  responseQueue (co sc1) !! requestCount (co sc1) = None /\
  (forall i, LogError i ∉ effs).
Proof.
  eexists _, _. split; [exact sc1_reachable|]. split; [reflexivity|].
  eapply (lookup_guard_never_fires ex_wof ex_layers sc1 5 6 None);
    [exact sc1_reachable|reflexivity].
Defined.

(** In a running service every search message in flight belongs to a
    pending request, so the missing-id guard of handleResults (lines
    145-148) never fires for it: handling its reply logs no error. *)
Theorem inflight_reply_never_logs (W : gmap string feature) (layers : list string)
    (s : sys) id l r c' effs :
  reachable W layers s -> (id, l) ∈ inflight s ->
  is_Some (responseQueue (co s) !! id) /\
  (handleResults (co s) (mkResults id r) = Ok c' effs -> forall i, LogError i ∉ effs).
Proof.
  intros Hr Hin. destruct (reachable_inv _ _ _ Hr) as [Hw Hf Hu].
  apply msgs_for_elem in Hin.
  assert (He : is_Some (responseQueue (co s) !! id)).
  { destruct (Nat.lt_ge_cases id (requestCount (co s))) as [Hlt|Hge].
    - destruct (Hu id Hlt) as (p & _ & Hm).
      destruct p; simpl in Hm; try contradiction.
      + destruct Hm as ((e & He & _) & _). eauto.
      + destruct Hm as [_ Hm]. rewrite Hm in Hin. inversion Hin.
      + destruct Hm as [_ Hm]. rewrite Hm in Hin. inversion Hin.
    - destruct (Hf id Hge) as (_ & _ & Hm). rewrite Hm in Hin. inversion Hin. }
  split; [done|]. destruct He as [e He]. intros Hh i Hi.
  destruct (handleResults_ok_cases _ _ _ _ _ _ Hh He)
    as [(_ & l' & rest & _ & _ & ->) | [(_ & _ & _ & ->) | (f & res & _ & _ & _ & ->)]];
    apply list_elem_of_singleton in Hi; discriminate.
Qed.

Lemma inflight_reply_never_logs_witness :
  reachable ex_wof ex_layers sc1 /\ (0, "locality") ∈ inflight sc1 /\
  is_Some (responseQueue (co sc1) !! 0) /\
  (handleResults (co sc1) (mkResults 0 None) =
     Ok (mkCoord 1 {[0 := mkEntry [] (0%Z, 0%Z) []]} ex_wof) [Dispatch 0 "country" (0%Z, 0%Z)] ->
   forall i, LogError i ∉ [Dispatch 0 "country" (0%Z, 0%Z)]).
Proof.
  assert (Hin : (0, "locality") ∈ inflight sc1) by (vm_compute; left).
  split; [exact sc1_reachable|]. split; [exact Hin|].
  exact (inflight_reply_never_logs ex_wof ex_layers sc1 0 "locality" None _ _
           sc1_reachable Hin).
Defined.

(** In a running service the completion callback of a request is called
    at most once, always with a null error, and nothing of that request
    happens after it. *)
Theorem callback_at_most_once (W : gmap string feature) (layers : list string)
    (s : sys) (id : nat) (t1 : list rev) err res (t2 : list rev) :
  reachable W layers s ->
  proj id (trace s) = t1 ++ RRespond err res :: t2 ->
  t2 = [] /\ err = None /\ (forall err' res', RRespond err' res' ∉ t1).
Proof.
  intros Hr Ht. destruct (reachable_inv _ _ _ Hr) as [Hw Hf Hu].
  destruct (Nat.lt_ge_cases id (requestCount (co s))) as [Hlt|Hge].
  - destruct (Hu id Hlt) as (p & Hrun & _). rewrite Ht in Hrun.
    by eapply cascade_run_respond_last.
  - destruct (Hf id Hge) as (H1 & _ & _). rewrite Ht in H1. by destruct t1.
Qed.

Lemma callback_at_most_once_witness :
  reachable ex_wof ex_layers sc3 /\
  proj 0 (trace sc3) =
    [RLookup ["locality"; "country"]; RDispatch "locality";
     RReply "locality" None; RDispatch "country"; RReply "country" (Some "300")] ++
    RRespond None [ex_country] :: [] /\
  [] = @nil rev /\ @None string = None /\
  (forall err' res', RRespond err' res' ∉
     [RLookup ["locality"; "country"]; RDispatch "locality";
      RReply "locality" None; RDispatch "country"; RReply "country" (Some "300")]).
Proof.
  split; [exact sc3_reachable|]. split; [exact sc3_trace|].
  exact (callback_at_most_once ex_wof ex_layers sc3 0
           [RLookup ["locality"; "country"]; RDispatch "locality";
            RReply "locality" None; RDispatch "country"; RReply "country" (Some "300")]
           None [ex_country] [] sc3_reachable sc3_trace).
Defined.

Lemma reachable_layers W layers s :
  reachable W layers s ->
  pool_layers s = layers /\
  (forall id l, (id, l) ∈ inflight s -> l ∈ layers) /\
  (forall id e l, responseQueue (co s) !! id = Some e -> l ∈ search_layers e -> l ∈ layers).
Proof.
  unfold reachable. revert s. apply rtc_ind_r.
  - simpl. split; [done|]. split.
    + intros id l Hin. inversion Hin.
    + intros id e l He. by rewrite lookup_empty in He.
  - intros y z Hyr Hyz (Hp & Hi & Hq).
    destruct (reachable_inv _ _ _ Hyr) as [_ Hf _].
    destruct Hyz as [s lat lon sl c' effs _ Hl
                    | s pre post id l r c' effs _ Hin Hh
                    | s pre post id l r _ _ _]; simpl in *.
    + destruct (Hf _ (le_n _)) as (_ & Hqn & _).
      pose proof (lookup_layers_sub (pool_layers s) sl) as Hsub.
      destruct (lookup_cases _ _ _ _ _ _ _ Hl Hqn)
        as [(_ & -> & ->) | (l & rest & Hls & -> & ->)]; simpl.
      * split; [done|]. split; [|done]. intros id l Hin. rewrite app_nil_r in Hin. eauto.
      * rewrite Hls, Hp in Hsub. split; [done|]. split.
        -- intros id l' Hin. apply elem_of_app in Hin as [Hin|Hin]; [eauto|].
           apply list_elem_of_singleton in Hin. injection Hin as -> ->.
           eapply elem_of_sublist; [|exact Hsub]. apply elem_of_cons. auto.
        -- intros id e l' He Hl'. destruct (decide (id = requestCount (co s))) as [->|Hne].
           ++ rewrite lookup_insert_eq in He. injection He as <-. simpl in Hl'.
              eapply elem_of_sublist; [|exact Hsub]. apply elem_of_cons. auto.
           ++ rewrite lookup_insert_ne in He by done. eauto.
    + assert (Hio : forall i l', (i, l') ∈ pre ++ post -> l' ∈ layers).
      { intros i l' H. apply (Hi i). rewrite Hin. set_solver. }
      destruct (responseQueue (co s) !! id) as [e|] eqn:He.
      * destruct (handleResults_ok_cases _ _ _ _ _ _ Hh He)
          as [(_ & l2 & rest & Hsl & -> & ->)
             | [(_ & _ & -> & ->) | (f & res & _ & _ & -> & ->)]]; simpl.
        -- split; [done|]. split.
           ++ intros i l' H. rewrite app_assoc in H. apply elem_of_app in H as [H|H]; [eauto|].
              apply list_elem_of_singleton in H. injection H as -> ->.
              apply (Hq id e); [done|]. rewrite Hsl. apply elem_of_cons. auto.
           ++ intros i e' l' He' Hl'. destruct (decide (i = id)) as [->|Hne].
              ** rewrite lookup_insert_eq in He'. injection He' as <-. simpl in Hl'.
                 apply (Hq id e); [done|]. rewrite Hsl. apply elem_of_cons. auto.
              ** rewrite lookup_insert_ne in He' by done. eauto.
        -- split; [done|]. split; [|done]. intros i l' H. rewrite app_assoc, app_nil_r in H.
           eauto.
        -- split; [done|]. split.
           ++ intros i l' H. rewrite app_assoc, app_nil_r in H. eauto.
           ++ intros i e' l' He' Hl'. destruct (decide (i = id)) as [->|Hne].
              ** by rewrite lookup_delete_eq in He'.
              ** rewrite lookup_delete_ne in He' by done. eauto.
      * unfold handleResults in Hh. simpl in Hh. rewrite He in Hh. injection Hh as <- <-.
        simpl. split; [done|]. split; [|done]. intros i l' H. rewrite app_assoc, app_nil_r in H.
        eauto.
    + split; [done|]. split; [|done]. eauto.
Qed.

(** In a running service a search message is only ever sent to the worker
    of a layer of the pool ([workers[layer]] is never undefined), however
    the caller chose [search_layers]. *)
Theorem search_only_pool_layers (W : gmap string feature) (layers : list string)
    (s : sys) (id : nat) (l : string) :
  reachable W layers s -> (id, l) ∈ inflight s -> l ∈ layers.
Proof. intros Hr. apply (proj1 (proj2 (reachable_layers _ _ _ Hr))). Qed.

Lemma search_only_pool_layers_witness :
  reachable ex_wof ex_layers sc1 /\ (0, "locality") ∈ inflight sc1 /\
  "locality" ∈ ex_layers.
Proof.
  assert (Hin : (0, "locality") ∈ inflight sc1) by (vm_compute; left).
  split; [exact sc1_reachable|]. split; [exact Hin|].
  exact (search_only_pool_layers ex_wof ex_layers sc1 0 "locality" sc1_reachable Hin).
Defined.

(** The layers one lookup searches are pool layers, in pool order, each
    at most once when the pool has no duplicate. *)
Theorem lookup_layers_sublist (layers : list string) (sl : option (list string)) :
  sublist (lookup_layers layers sl) layers /\
  (NoDup layers -> NoDup (lookup_layers layers sl)).
Proof.
  split; [apply lookup_layers_sub|]. intros Hnd.
  eapply sublist_NoDup; [exact Hnd|apply lookup_layers_sub].
Qed.

Lemma lookup_layers_sublist_witness :
  NoDup (create_layers None) /\
  sublist (lookup_layers (create_layers None) (Some ["country"; "bogus"; "country"]))
    (create_layers None) /\
  NoDup (lookup_layers (create_layers None) (Some ["country"; "bogus"; "country"])).
Proof.
  assert (Hnd : NoDup (create_layers None)) by apply create_layers_NoDup.
  split; [exact Hnd|].
  destruct (lookup_layers_sublist (create_layers None) (Some ["country"; "bogus"; "country"]))
    as [H1 H2].
  split; [exact H1|exact (H2 Hnd)].
Defined.

(** startWorker: after the layers' datasets have been merged, a feature
    id maps to the record of the last merged dataset that has it. *)
Theorem load_all_last_wins (ds : list (gmap string feature)) (id : string) :
  load_all ds !! id = last (omap (fun d => d !! id) ds).
Proof.
  unfold load_all. rewrite load_all_go, lookup_empty.
  by destruct (last (omap _ ds)).
Qed.

(** startWorker: when the layers' datasets agree on every id they share,
    the merged [wofData] does not depend on the order in which the
    workers finished loading. *)
Theorem load_all_order_irrelevant (ds ds' : list (gmap string feature)) :
  ds ≡ₚ ds' ->
  (forall d1 d2 id r1 r2, d1 ∈ ds -> d2 ∈ ds ->
     d1 !! id = Some r1 -> d2 !! id = Some r2 -> r1 = r2) ->
  load_all ds = load_all ds'.
Proof.
  intros Hp Hagree. apply map_eq. intros id. unfold load_all. rewrite !load_all_go.
  destruct (last (omap (fun d : gmap string feature => d !! id) ds)) as [r|] eqn:H1,
           (last (omap (fun d : gmap string feature => d !! id) ds')) as [r'|] eqn:H2;
    rewrite ?lookup_empty.
  - apply last_Some_elem_of, list_elem_of_omap in H1 as (d1 & Hd1 & Hr1).
    apply last_Some_elem_of, list_elem_of_omap in H2 as (d2 & Hd2 & Hr2).
    rewrite <- Hp in Hd2. f_equal. eauto.
  - apply last_Some_elem_of, list_elem_of_omap in H1 as (d1 & Hd1 & Hr1).
    apply last_None in H2. rewrite Hp in Hd1.
    assert (Hc : r ∈ omap (fun d : gmap string feature => d !! id) ds')
      by (apply list_elem_of_omap; eauto).
    rewrite H2 in Hc. inversion Hc.
  - apply last_Some_elem_of, list_elem_of_omap in H2 as (d2 & Hd2 & Hr2).
    apply last_None in H1. rewrite <- Hp in Hd2.
    assert (Hc : r' ∈ omap (fun d : gmap string feature => d !! id) ds)
      by (apply list_elem_of_omap; eauto).
    rewrite H1 in Hc. inversion Hc.
  - done.
Qed.

Lemma load_all_order_irrelevant_witness :
  [ex_locality_data; ex_country_data] ≡ₚ [ex_country_data; ex_locality_data] /\
  load_all [ex_locality_data; ex_country_data] = load_all [ex_country_data; ex_locality_data].
Proof.
  assert (Hp : [ex_locality_data; ex_country_data] ≡ₚ [ex_country_data; ex_locality_data])
    by apply perm_swap.
  split; [exact Hp|]. apply (load_all_order_irrelevant _ _ Hp).
  intros d1 d2 id r1 r2 H1 H2 Hr1 Hr2.
  repeat (apply elem_of_cons in H1 as [->|H1]); [| |inversion H1];
  repeat (apply elem_of_cons in H2 as [->|H2]); try inversion H2;
  unfold ex_locality_data, ex_country_data in *;
  apply lookup_singleton_Some in Hr1 as [<- <-];
  apply lookup_singleton_Some in Hr2 as [? <-]; congruence.
Defined.

End ServiceProperties.
